(** * Claude usage widget: the tmux scraping scripts and the usage bar

    The three shell entry points ([claude-usage.sh],
    [claude-usage-compact.sh], [claude-usage-json.sh]) drive [claude] inside
    a detached tmux session, capture the pane and parse the text with
    [grep], [sed], [head] and [tr].  The development below embeds

    - the regular expressions of the scripts and their POSIX
      (leftmost, longest) matching,
    - the line-oriented tools of the pipelines,
    - the scripts themselves, run against an arbitrary tmux, and
    - the [UsageBar] React component,

    and proves the properties of the specification about them.

    Text is a list of 8-bit characters; the tools are modelled in the C
    locale, where every byte is a character. *)

From Stdlib Require Import Ascii String DecimalString.
From Stdlib Require DecimalNat DecimalFacts.
From Stdlib Require Import List Bool Arith Lia ZArith QArith Qround Lqa.
Import ListNotations.
Open Scope list_scope.
Open Scope nat_scope.

(* ================================================================= *)
(** * Characters and text *)

Definition bytes := list ascii.

(** A literal of the scripts, as text. *)
Definition lit (s : string) : bytes := list_ascii_of_string s.

Definition nl : ascii := "010"%char.
Definition nul : ascii := "000"%char.

(** [[0-9]] *)
Definition is_digit (c : ascii) : bool :=
  (48 <=? nat_of_ascii c) && (nat_of_ascii c <=? 57).

(** [[[:space:]]]: space, TAB, LF, VT, FF, CR. *)
Definition is_space (c : ascii) : bool :=
  let n := nat_of_ascii c in
  (n =? 32) || ((9 <=? n) && (n <=? 13)).

(* ================================================================= *)
(** * Regular expressions *)

Module Regex.

Inductive regex : Type :=
| Void : regex
| Eps : regex
| Chr : ascii -> regex
| Cls : (ascii -> bool) -> regex
| Cat : regex -> regex -> regex
| Alt : regex -> regex -> regex
| Star : regex -> regex.

(** [.] *)
Definition Any : regex := Cls (fun _ => true).

(** [r+] *)
Definition Plus (r : regex) : regex := Cat r (Star r).

(** A run of ordinary characters. *)
Fixpoint Lit (s : bytes) : regex :=
  match s with
  | [] => Eps
  | c :: s' => Cat (Chr c) (Lit s')
  end.

(** The language of an expression. *)
Inductive matches : regex -> bytes -> Prop :=
| MEps : matches Eps []
| MChr : forall c, matches (Chr c) [c]
| MCls : forall p c, p c = true -> matches (Cls p) [c]
| MCat : forall r s u v, matches r u -> matches s v -> matches (Cat r s) (u ++ v)
| MAltL : forall r s u, matches r u -> matches (Alt r s) u
| MAltR : forall r s u, matches s u -> matches (Alt r s) u
| MStar0 : forall r, matches (Star r) []
| MStarS : forall r u v, matches r u -> matches (Star r) v -> matches (Star r) (u ++ v).

Fixpoint nullable (r : regex) : bool :=
  match r with
  | Void => false
  | Eps => true
  | Chr _ => false
  | Cls _ => false
  | Cat r s => nullable r && nullable s
  | Alt r s => nullable r || nullable s
  | Star _ => true
  end.

(** Constructors that drop [Void] and [Eps], to keep derivatives small. *)
Definition cat (r s : regex) : regex :=
  match r with
  | Void => Void
  | Eps => s
  | _ => Cat r s
  end.

Definition alt (r s : regex) : regex :=
  match r, s with
  | Void, _ => s
  | _, Void => r
  | _, _ => Alt r s
  end.

(** The derivative of [r] by the character [c]. *)
Fixpoint deriv (c : ascii) (r : regex) : regex :=
  match r with
  | Void => Void
  | Eps => Void
  | Chr d => if Ascii.eqb c d then Eps else Void
  | Cls p => if p c then Eps else Void
  | Cat r s =>
      if nullable r then alt (cat (deriv c r) s) (deriv c s)
      else cat (deriv c r) s
  | Alt r s => alt (deriv c r) (deriv c s)
  | Star r => cat (deriv c r) (Star r)
  end.

(** The length of the longest prefix of [s] that [r] matches. *)
Fixpoint longest_prefix (r : regex) (s : bytes) : option nat :=
  match s with
  | [] => if nullable r then Some 0 else None
  | c :: s' =>
      match longest_prefix (deriv c r) s' with
      | Some n => Some (S n)
      | None => if nullable r then Some 0 else None
      end
  end.

(** [r] matches the whole of [s]. *)
Fixpoint accepts (r : regex) (s : bytes) : bool :=
  match s with
  | [] => nullable r
  | c :: s' => accepts (deriv c r) s'
  end.

(** A pattern as [grep] and [sed] read it: an expression, anchored at the
    beginning of the line by [^] and at its end by [$]. *)
Record pattern : Type := Pattern {
  bol : bool;
  body : regex;
  eol : bool
}.

Definition unanchored (r : regex) : pattern := Pattern false r false.

(** The longest match of the pattern that starts at the head of [s]. *)
Definition match_here (p : pattern) (s : bytes) : option nat :=
  if eol p then (if accepts (body p) s then Some (length s) else None)
  else longest_prefix (body p) s.

Fixpoint search_from (p : pattern) (s : bytes) : option (nat * nat) :=
  match match_here p s with
  | Some n => Some (0, n)
  | None =>
      match s with
      | [] => None
      | _ :: s' =>
          match search_from p s' with
          | Some (i, n) => Some (S i, n)
          | None => None
          end
      end
  end.

(** POSIX search: the leftmost match, and the longest at that place, as
    (start, length). *)
Definition search (p : pattern) (s : bytes) : option (nat * nat) :=
  if bol p then
    match match_here p s with
    | Some n => Some (0, n)
    | None => None
    end
  else search_from p s.

End Regex.

Import Regex.

(* ================================================================= *)
(** * The tools of the pipelines

    Every tool reads text on its standard input and writes text on its
    standard output; the line-oriented ones work on the lines of the input
    and end each line they print with a newline. *)

Module Tools.

(** The lines of a text: each newline ends a line, a last line without a
    newline still counts. *)
Fixpoint lines_of (t : bytes) : list bytes :=
  match t with
  | [] => []
  | c :: t' =>
      if Ascii.eqb c nl then [] :: lines_of t'
      else
        match lines_of t' with
        | [] => [[c]]
        | l :: ls => (c :: l) :: ls
        end
  end.

Definition unlines (ls : list bytes) : bytes :=
  concat (map (fun l => l ++ [nl]) ls).

Definition by_line (f : list bytes -> list bytes) (input : bytes) : bytes :=
  unlines (f (lines_of input)).

(** ** [echo] (the bash builtin, one argument)

    An argument [-] followed by letters among [n], [e], [E] is read as
    options; [n] suppresses the newline.  Anything else is printed. *)
Definition is_echo_flag (c : ascii) : bool :=
  Ascii.eqb c "n" || Ascii.eqb c "e" || Ascii.eqb c "E".

Definition echo_options (arg : bytes) : option bytes :=
  match arg with
  | c :: f :: fs =>
      if Ascii.eqb c "-" && forallb is_echo_flag (f :: fs) then Some (f :: fs) else None
  | _ => None
  end.

Definition echo (arg : bytes) : bytes :=
  match echo_options arg with
  | Some fs => if existsb (Ascii.eqb "n") fs then [] else [nl]
  | None => arg ++ [nl]
  end.

(** ** Command substitution [$(...)]

    The shell drops NUL bytes and the trailing newlines of the output. *)
Fixpoint drop_newlines (t : bytes) : bytes :=
  match t with
  | [] => []
  | c :: t' => if Ascii.eqb c nl then drop_newlines t' else t
  end.

Definition strip_trailing_newlines (t : bytes) : bytes :=
  rev (drop_newlines (rev t)).

Definition cmd_subst (output : bytes) : bytes :=
  strip_trailing_newlines (filter (fun c => negb (Ascii.eqb c nul)) output).

(** ** Parameter expansion [${VAR:-word}]: [word] when the variable is
    unset or empty. *)
Definition or_default (value word : bytes) : bytes :=
  match value with
  | [] => word
  | _ => value
  end.

(** ** [grep] *)

(** The line is selected: the pattern matches somewhere in it. *)
Definition selects (p : pattern) (l : bytes) : bool :=
  match search p l with
  | Some _ => true
  | None => false
  end.

(** [grep PATTERN] *)
Definition grep (p : pattern) : bytes -> bytes :=
  by_line (filter (selects p)).

(** [grep -v PATTERN] *)
Definition grep_v (p : pattern) : bytes -> bytes :=
  by_line (filter (fun l => negb (selects p l))).

(** The separator [grep] prints between groups of context lines. *)
Definition group_separator : bytes := lit "--".

(** [grep -A NUM PATTERN]: selected lines, each followed by NUM lines of
    trailing context.  [after] counts the context lines still to print,
    [used] tells whether anything was printed, [adjacent] whether the line
    before this one was printed: a selected line that does not follow the
    last printed one is preceded by the separator. *)
Fixpoint grep_A_lines (p : pattern) (num after : nat) (used adjacent : bool)
    (ls : list bytes) : list bytes :=
  match ls with
  | [] => []
  | l :: ls' =>
      if selects p l then
        (if used && negb adjacent then [group_separator] else [])
          ++ l :: grep_A_lines p num num true true ls'
      else
        match after with
        | S k => l :: grep_A_lines p num k true true ls'
        | O => grep_A_lines p num 0 used false ls'
        end
  end.

Definition grep_A (num : nat) (p : pattern) : bytes -> bytes :=
  by_line (grep_A_lines p num 0 false false).

(** [grep -o]: the non-empty matches of a line, from left to right, each
    search starting where the match before ended.  [skip] counts the
    characters of the current match still to pass. *)
Fixpoint only_matching (r : regex) (skip : nat) (s : bytes) : list bytes :=
  match s with
  | [] => []
  | _ :: s' =>
      match skip with
      | S k => only_matching r k s'
      | O =>
          match longest_prefix r s with
          | Some (S n) => firstn (S n) s :: only_matching r n s'
          | _ => only_matching r 0 s'
          end
      end
  end.

(** [grep -oE REGEX] *)
Definition grep_o (r : regex) : bytes -> bytes :=
  by_line (flat_map (only_matching r 0)).

(** ** [head -NUM] *)
Definition head (num : nat) : bytes -> bytes :=
  by_line (firstn num).

(** ** [tr -d CHAR] *)
Definition tr_d (c : ascii) (input : bytes) : bytes :=
  filter (fun x => negb (Ascii.eqb x c)) input.

(** ** [sed 's/PATTERN/REPLACEMENT/']: the first match of each line is
    replaced. *)
Definition substitute (p : pattern) (replacement l : bytes) : bytes :=
  match search p l with
  | Some (i, n) => firstn i l ++ replacement ++ skipn (i + n) l
  | None => l
  end.

Definition sed_s (p : pattern) (replacement : bytes) : bytes -> bytes :=
  by_line (map (substitute p replacement)).

(** A pipe: the output of the left is the input of the right. *)
Definition pipe (input : bytes) (tool : bytes -> bytes) : bytes := tool input.

End Tools.

Import Tools.

Notation "x |> f" := (pipe x f) (at level 61, left associativity, only parsing).

(* ================================================================= *)
(** * The patterns of the scripts *)

(** A basic regular expression without special characters (in a basic
    expression [(] and [)] are ordinary). *)
Definition fixed (s : string) : pattern := unanchored (Lit (lit s)).

(** ['[0-9]+%'] *)
Definition percent_token : regex := Cat (Plus (Cls is_digit)) (Chr "%").

(** ['s/.*Resets //'] *)
Definition upto_Resets : pattern :=
  unanchored (Cat (Star Any) (Lit (lit "Resets "))).

(** ["(Current session|Current week|% used|Resets)"] *)
Definition usage_line : pattern :=
  unanchored
    (Alt (Lit (lit "Current session"))
      (Alt (Lit (lit "Current week"))
        (Alt (Lit (lit "% used")) (Lit (lit "Resets"))))).

(** ['s/^[[:space:]]*//'] *)
Definition leading_space : pattern := Pattern true (Star (Cls is_space)) false.

(** ["^$"] *)
Definition empty_line : pattern := Pattern true Eps true.

(* ================================================================= *)
(** * The shell and its surroundings *)

(** The external commands of the scripts.  Their standard error goes to
    [/dev/null] or to the terminal and is not part of the model. *)
Inductive command : Type :=
| tmux_new_session (name shell_command : bytes)   (* tmux new-session -d -s NAME CMD *)
| tmux_send_keys (target keys : bytes)            (* tmux send-keys -t TARGET KEYS *)
| tmux_capture_pane (target : bytes)              (* tmux capture-pane -t TARGET -p *)
| tmux_kill_session (target : bytes)              (* tmux kill-session -t TARGET *)
| sleep (seconds : nat)
| date_Iseconds.                                  (* date -Iseconds *)

(** What the machine answers: for each command, given the commands run
    before it, an exit status and the text written to standard output.
    Nothing is assumed of either: any command may fail, any text may come
    back.  Only [capture-pane -p] and [date] write to standard output;
    [new-session -d], [send-keys], [kill-session] and [sleep] are silent. *)
Record world : Type := World {
  exit_status : list command -> command -> nat;
  printed : list command -> command -> bytes
}.

Definition silent (c : command) : bool :=
  match c with
  | tmux_capture_pane _ | date_Iseconds => false
  | _ => true
  end.

Record state : Type := State {
  history : list command;      (* the external commands run so far, in order *)
  vars : string -> bytes;      (* the shell variables; unset is empty *)
  stdout : bytes;              (* what the script has printed *)
  status : nat                 (* [$?] *)
}.

Definition initial : state := State [] (fun _ => []) [] 0.

(** A script: a step of the shell in a world. *)
Definition Sh (A : Type) : Type := world -> state -> A * state.

Definition ret {A : Type} (a : A) : Sh A := fun _ st => (a, st).

Definition bind {A B : Type} (c : Sh A) (k : A -> Sh B) : Sh B :=
  fun w st => let (a, st') := c w st in k a w st'.

Notation "x <- c ;; k" := (bind c (fun x => k))
  (at level 100, c at next level, right associativity).
Notation "c ;; k" := (bind c (fun _ => k))
  (at level 100, right associativity).

(** The shell has no [errexit] set and the scripts have no [&&], [||] or
    [if]: the next command runs whatever the status of the one before. *)

(** Run an external command; its output is returned to the caller. *)
Definition run (c : command) : Sh bytes :=
  fun w st =>
    (if silent c then [] else printed w (history st) c,
     State (history st ++ [c]) (vars st) (stdout st) (exit_status w (history st) c)).

(** [$VAR] *)
Definition var (x : string) : Sh bytes := fun _ st => (vars st x, st).

Definition update (x : string) (v : bytes) (e : string -> bytes) : string -> bytes :=
  fun y => if String.eqb x y then v else e y.

(** [VAR=value]; the status of the command in [value], if any, is kept. *)
Definition assign (x : string) (v : bytes) : Sh unit :=
  fun _ st => (tt, State (history st) (update x v (vars st)) (stdout st) (status st)).

(** The exit status of a builtin or of the last command of a pipeline. *)
Definition exits (n : nat) : Sh unit :=
  fun _ st => (tt, State (history st) (vars st) (stdout st) n).

(** Write to the standard output of the script. *)
Definition print (t : bytes) : Sh unit :=
  fun _ st => (tt, State (history st) (vars st) (stdout st ++ t) (status st)).

(** [grep] exits with 1 when it selects no line. *)
Definition grep_status (output : bytes) : nat :=
  match output with
  | [] => 1
  | _ => 0
  end.

(** The final state of a script run from a fresh shell. *)
Definition exec (script : Sh unit) (w : world) : state := snd (script w initial).

(** [$$] in decimal. *)
Definition decimal (n : nat) : bytes := lit (NilZero.string_of_uint (Nat.to_uint n)).

Definition dq : ascii := "034"%char.

(* ================================================================= *)
(** * The scripts *)

(** ** [claude-usage.sh] *)
Definition claude_usage (pid : nat) : Sh unit :=
  assign "SESSION_NAME" (lit "claude-usage-" ++ decimal pid) ;;
  name <- var "SESSION_NAME" ;;
  run (tmux_new_session name (lit "claude")) ;;
  run (sleep 4) ;;
  name <- var "SESSION_NAME" ;;
  run (tmux_send_keys name (lit "/usage")) ;;
  run (sleep 1) ;;
  name <- var "SESSION_NAME" ;;
  run (tmux_send_keys name (lit "Enter")) ;;
  run (sleep 3) ;;
  name <- var "SESSION_NAME" ;;
  captured <- run (tmux_capture_pane name) ;;
  assign "OUTPUT" (cmd_subst captured) ;;
  name <- var "SESSION_NAME" ;;
  run (tmux_kill_session name) ;;
  OUTPUT <- var "OUTPUT" ;;
  let listing :=
    echo OUTPUT |> grep usage_line |> sed_s leading_space [] |> grep_v empty_line in
  print listing ;;
  exits (grep_status listing).

(** ** [claude-usage-compact.sh] *)
Definition claude_usage_compact (pid : nat) : Sh unit :=
  assign "SESSION_NAME" (lit "claude-usage-" ++ decimal pid) ;;
  name <- var "SESSION_NAME" ;;
  run (tmux_new_session name (lit "claude")) ;;
  run (sleep 4) ;;
  name <- var "SESSION_NAME" ;;
  run (tmux_send_keys name (lit "/usage")) ;;
  run (sleep 1) ;;
  name <- var "SESSION_NAME" ;;
  run (tmux_send_keys name (lit "Enter")) ;;
  run (sleep 3) ;;
  name <- var "SESSION_NAME" ;;
  captured <- run (tmux_capture_pane name) ;;
  assign "OUTPUT" (cmd_subst captured) ;;
  name <- var "SESSION_NAME" ;;
  run (tmux_kill_session name) ;;
  OUTPUT <- var "OUTPUT" ;;
  assign "SESSION_PCT"
    (cmd_subst (echo OUTPUT |> grep_A 2 (fixed "Current session")
                  |> grep_o percent_token |> head 1)) ;;
  exits 0 ;;
  OUTPUT <- var "OUTPUT" ;;
  assign "WEEK_PCT"
    (cmd_subst (echo OUTPUT |> grep_A 2 (fixed "Current week (all models)")
                  |> grep_o percent_token |> head 1)) ;;
  exits 0 ;;
  SESSION_PCT <- var "SESSION_PCT" ;;
  WEEK_PCT <- var "WEEK_PCT" ;;
  print (echo (lit "Claude: " ++ or_default SESSION_PCT (lit "?")
                 ++ lit " | Week: " ++ or_default WEEK_PCT (lit "?"))) ;;
  exits 0.

(** The here-document of [claude-usage-json.sh]; the arguments are its
    seven expansions, in the order of the text. *)
Definition here_document
    (timestamp session_pct session_reset week_all_pct week_all_reset
       week_sonnet_pct week_sonnet_reset : bytes) : bytes :=
  lit "{" ++ [nl]
  ++ lit "  " ++ [dq] ++ lit "timestamp" ++ [dq] ++ lit ": "
     ++ [dq] ++ timestamp ++ [dq] ++ lit "," ++ [nl]
  ++ lit "  " ++ [dq] ++ lit "session" ++ [dq] ++ lit ": {" ++ [nl]
  ++ lit "    " ++ [dq] ++ lit "percent_used" ++ [dq] ++ lit ": "
     ++ session_pct ++ lit "," ++ [nl]
  ++ lit "    " ++ [dq] ++ lit "resets" ++ [dq] ++ lit ": "
     ++ [dq] ++ session_reset ++ [dq] ++ [nl]
  ++ lit "  }," ++ [nl]
  ++ lit "  " ++ [dq] ++ lit "week_all_models" ++ [dq] ++ lit ": {" ++ [nl]
  ++ lit "    " ++ [dq] ++ lit "percent_used" ++ [dq] ++ lit ": "
     ++ week_all_pct ++ lit "," ++ [nl]
  ++ lit "    " ++ [dq] ++ lit "resets" ++ [dq] ++ lit ": "
     ++ [dq] ++ week_all_reset ++ [dq] ++ [nl]
  ++ lit "  }," ++ [nl]
  ++ lit "  " ++ [dq] ++ lit "week_sonnet" ++ [dq] ++ lit ": {" ++ [nl]
  ++ lit "    " ++ [dq] ++ lit "percent_used" ++ [dq] ++ lit ": "
     ++ week_sonnet_pct ++ lit "," ++ [nl]
  ++ lit "    " ++ [dq] ++ lit "resets" ++ [dq] ++ lit ": "
     ++ [dq] ++ week_sonnet_reset ++ [dq] ++ [nl]
  ++ lit "  }" ++ [nl]
  ++ lit "}" ++ [nl].

(** ** [claude-usage-json.sh] *)
Definition claude_usage_json (pid : nat) : Sh unit :=
  assign "SESSION_NAME" (lit "claude-usage-" ++ decimal pid) ;;
  name <- var "SESSION_NAME" ;;
  run (tmux_new_session name (lit "claude")) ;;
  run (sleep 4) ;;
  name <- var "SESSION_NAME" ;;
  run (tmux_send_keys name (lit "/usage")) ;;
  run (sleep 1) ;;
  name <- var "SESSION_NAME" ;;
  run (tmux_send_keys name (lit "Enter")) ;;
  run (sleep 3) ;;
  name <- var "SESSION_NAME" ;;
  captured <- run (tmux_capture_pane name) ;;
  assign "OUTPUT" (cmd_subst captured) ;;
  name <- var "SESSION_NAME" ;;
  run (tmux_kill_session name) ;;
  OUTPUT <- var "OUTPUT" ;;
  assign "SESSION_PCT"
    (cmd_subst (echo OUTPUT |> grep_A 2 (fixed "Current session")
                  |> grep_o percent_token |> head 1 |> tr_d "%")) ;;
  exits 0 ;;
  OUTPUT <- var "OUTPUT" ;;
  assign "WEEK_ALL_PCT"
    (cmd_subst (echo OUTPUT |> grep_A 2 (fixed "Current week (all models)")
                  |> grep_o percent_token |> head 1 |> tr_d "%")) ;;
  exits 0 ;;
  OUTPUT <- var "OUTPUT" ;;
  assign "WEEK_SONNET_PCT"
    (cmd_subst (echo OUTPUT |> grep_A 2 (fixed "Current week (Sonnet only)")
                  |> grep_o percent_token |> head 1 |> tr_d "%")) ;;
  exits 0 ;;
  OUTPUT <- var "OUTPUT" ;;
  assign "SESSION_RESET"
    (cmd_subst (echo OUTPUT |> grep_A 3 (fixed "Current session")
                  |> grep (fixed "Resets") |> sed_s upto_Resets [] |> head 1)) ;;
  exits 0 ;;
  OUTPUT <- var "OUTPUT" ;;
  assign "WEEK_ALL_RESET"
    (cmd_subst (echo OUTPUT |> grep_A 3 (fixed "Current week (all models)")
                  |> grep (fixed "Resets") |> sed_s upto_Resets [] |> head 1)) ;;
  exits 0 ;;
  OUTPUT <- var "OUTPUT" ;;
  assign "WEEK_SONNET_RESET"
    (cmd_subst (echo OUTPUT |> grep_A 3 (fixed "Current week (Sonnet only)")
                  |> grep (fixed "Resets") |> sed_s upto_Resets [] |> head 1)) ;;
  exits 0 ;;
  now <- run date_Iseconds ;;
  SESSION_PCT <- var "SESSION_PCT" ;;
  SESSION_RESET <- var "SESSION_RESET" ;;
  WEEK_ALL_PCT <- var "WEEK_ALL_PCT" ;;
  WEEK_ALL_RESET <- var "WEEK_ALL_RESET" ;;
  WEEK_SONNET_PCT <- var "WEEK_SONNET_PCT" ;;
  WEEK_SONNET_RESET <- var "WEEK_SONNET_RESET" ;;
  print
    (here_document (cmd_subst now)
       (or_default SESSION_PCT (lit "0")) (or_default SESSION_RESET (lit "unknown"))
       (or_default WEEK_ALL_PCT (lit "0")) (or_default WEEK_ALL_RESET (lit "unknown"))
       (or_default WEEK_SONNET_PCT (lit "0"))
       (or_default WEEK_SONNET_RESET (lit "unknown"))) ;;
  exits 0.

(** A machine on which every command succeeds, the pane shows [screen]
    and the clock reads [now]. *)
Definition showing (screen now : bytes) : world :=
  World (fun _ _ => 0)
        (fun _ c => match c with
                    | tmux_capture_pane _ => screen
                    | date_Iseconds => now
                    | _ => []
                    end).

(** A machine without tmux: every command fails with status 127 and
    prints nothing. *)
Definition broken : world := World (fun _ _ => 127) (fun _ _ => []).

(* ================================================================= *)
(** * [UsageBar.tsx] *)

Module UsageBar.

(** A JavaScript number.  The finite ones are rationals; the operations
    used by the component ([>=], [Math.min], [Math.max], [Math.round]) are
    exact on them, and the sign of zero does not show in what is
    rendered. *)
Inductive number : Type :=
| NaN : number
| NegInfinity : number
| Finite : Q -> number
| PosInfinity : number.

Definition of_Z (z : Z) : number := Finite (inject_Z z).

(** [a >= b] *)
Definition ge (a b : number) : bool :=
  match a, b with
  | NaN, _ | _, NaN => false
  | PosInfinity, _ => true
  | _, NegInfinity => true
  | NegInfinity, _ => false
  | _, PosInfinity => false
  | Finite x, Finite y => Qle_bool y x
  end.

(** [Math.max(a, b)] and [Math.min(a, b)]: NaN when an argument is NaN. *)
Definition Math_max (a b : number) : number :=
  match a, b with
  | NaN, _ | _, NaN => NaN
  | _, _ => if ge a b then a else b
  end.

Definition Math_min (a b : number) : number :=
  match a, b with
  | NaN, _ | _, NaN => NaN
  | _, _ => if ge a b then b else a
  end.

(** [Math.round(x)]: the nearest integer, a tie going up. *)
Definition Math_round (x : number) : number :=
  match x with
  | Finite q => of_Z (Qfloor (q + (1 # 2))%Q)
  | _ => x
  end.

Inductive variant : Type := default | opus.

(** What the component renders: the colour class and the width (in
    percent) of the fill element, and the number of the label. *)
Record rendering : Type := Rendering {
  fill_class : string;
  fill_width : number;
  label : number
}.

Definition getColorClass (percent : number) (v : variant) : string :=
  if ge percent (of_Z 90) then "bar-danger"
  else if ge percent (of_Z 70) then "bar-warning"
  else match v with opus => "bar-opus" | default => "bar-accent" end.

Definition UsageBar (percent : number) (v : variant) : rendering :=
  let clampedPercent := Math_min (of_Z 100) (Math_max (of_Z 0) percent) in
  Rendering (getColorClass percent v) clampedPercent (Math_round percent).

(** The width is a number between 0 and 100. *)
Definition in_bounds (x : number) : Prop :=
  match x with
  | Finite q => (0 <= q /\ q <= 100)%Q
  | _ => False
  end.

End UsageBar.

(* ================================================================= *)
(** * Well-formed JSON (RFC 8259) *)

Module Json.

Definition is_ws (c : ascii) : bool :=
  let n := nat_of_ascii c in
  (n =? 32) || (n =? 9) || (n =? 10) || (n =? 13).

Fixpoint skip_ws (s : bytes) : bytes :=
  match s with
  | c :: s' => if is_ws c then skip_ws s' else s
  | [] => []
  end.

Definition is_hex (c : ascii) : bool :=
  let n := nat_of_ascii c in
  is_digit c || ((65 <=? n) && (n <=? 70)) || ((97 <=? n) && (n <=? 102)).

Definition is_escape (c : ascii) : bool :=
  existsb (Ascii.eqb c) (dq :: lit "\/bfnrt").

(** The characters of a string after its opening quote, up to and with the
    closing one; what follows is returned. *)
Fixpoint string_body (s : bytes) : option bytes :=
  match s with
  | [] => None
  | c :: s' =>
      if Ascii.eqb c dq then Some s'
      else if Ascii.eqb c "\" then
        match s' with
        | e :: s'' =>
            if is_escape e then string_body s''
            else if Ascii.eqb e "u" then
              match s'' with
              | h1 :: h2 :: h3 :: h4 :: s3 =>
                  if is_hex h1 && is_hex h2 && is_hex h3 && is_hex h4
                  then string_body s3 else None
              | _ => None
              end
            else None
        | [] => None
        end
      else if nat_of_ascii c <? 32 then None
      else string_body s'
  end.

Fixpoint skip_digits (s : bytes) : bytes :=
  match s with
  | c :: s' => if is_digit c then skip_digits s' else s
  | [] => []
  end.

(** At least one digit. *)
Definition some_digits (s : bytes) : option bytes :=
  match s with
  | c :: s' => if is_digit c then Some (skip_digits s') else None
  | [] => None
  end.

Definition fraction (s : bytes) : option bytes :=
  match s with
  | c :: s' => if Ascii.eqb c "." then some_digits s' else Some s
  | [] => Some s
  end.

Definition exponent (s : bytes) : option bytes :=
  match s with
  | c :: s' =>
      if Ascii.eqb c "e" || Ascii.eqb c "E" then
        match s' with
        | sign :: s'' =>
            if Ascii.eqb sign "+" || Ascii.eqb sign "-" then some_digits s''
            else some_digits s'
        | [] => None
        end
      else Some s
  | [] => Some s
  end.

(** An optional minus, then 0 or digits without a leading 0, then an
    optional fraction and an optional exponent. *)
Definition number (s : bytes) : option bytes :=
  let unsigned :=
    match s with
    | c :: s' => if Ascii.eqb c "-" then s' else s
    | [] => s
    end in
  let int :=
    match unsigned with
    | c :: s' =>
        if Ascii.eqb c "0" then Some s'
        else if is_digit c then Some (skip_digits s')
        else None
    | [] => None
    end in
  match int with
  | Some s1 =>
      match fraction s1 with
      | Some s2 => exponent s2
      | None => None
      end
  | None => None
  end.

Fixpoint starts_with (word s : bytes) : option bytes :=
  match word, s with
  | [], _ => Some s
  | w :: word', c :: s' => if Ascii.eqb w c then starts_with word' s' else None
  | _ :: _, [] => None
  end.

Inductive part : Type := Value | Members | Elements.

(** A value; the members of an object after its brace; the elements of
    an array after its bracket.  What follows is returned. *)
Fixpoint parse (fuel : nat) (what : part) (s : bytes) : option bytes :=
  match fuel with
  | O => None
  | S fuel' =>
      match what with
      | Value =>
          match s with
          | [] => None
          | c :: s' =>
              if Ascii.eqb c dq then string_body s'
              else if Ascii.eqb c "{" then
                match skip_ws s' with
                | d :: s'' =>
                    if Ascii.eqb d "}" then Some s''
                    else parse fuel' Members (d :: s'')
                | [] => None
                end
              else if Ascii.eqb c "[" then
                match skip_ws s' with
                | d :: s'' =>
                    if Ascii.eqb d "]" then Some s''
                    else parse fuel' Elements (d :: s'')
                | [] => None
                end
              else if Ascii.eqb c "t" then starts_with (lit "rue") s'
              else if Ascii.eqb c "f" then starts_with (lit "alse") s'
              else if Ascii.eqb c "n" then starts_with (lit "ull") s'
              else number s
          end
      | Members =>
          match s with
          | c :: s' =>
              if Ascii.eqb c dq then
                match string_body s' with
                | Some s1 =>
                    match skip_ws s1 with
                    | colon :: s2 =>
                        if Ascii.eqb colon ":" then
                          match parse fuel' Value (skip_ws s2) with
                          | Some s3 =>
                              match skip_ws s3 with
                              | d :: s4 =>
                                  if Ascii.eqb d "," then parse fuel' Members (skip_ws s4)
                                  else if Ascii.eqb d "}" then Some s4
                                  else None
                              | [] => None
                              end
                          | None => None
                          end
                        else None
                    | [] => None
                    end
                | None => None
                end
              else None
          | [] => None
          end
      | Elements =>
          match parse fuel' Value s with
          | Some s1 =>
              match skip_ws s1 with
              | d :: s2 =>
                  if Ascii.eqb d "," then parse fuel' Elements (skip_ws s2)
                  else if Ascii.eqb d "]" then Some s2
                  else None
              | [] => None
              end
          | None => None
          end
      end
  end.

(** The text is one JSON value, with blanks around it at most, as far as
    [fuel] lets the reader see. *)
Definition well_formed_with (fuel : nat) (s : bytes) : bool :=
  match parse fuel Value (skip_ws s) with
  | Some rest => match skip_ws rest with [] => true | _ => false end
  | None => false
  end.

(** A value inside an array takes two units of fuel and is one character
    long at least: twice the length of the text is fuel enough. *)
Definition well_formed (s : bytes) : bool :=
  well_formed_with (2 * length s + 2) s.

(** The text is one JSON object. *)
Definition is_object (s : bytes) : bool :=
  well_formed s &&
  match skip_ws s with
  | c :: _ => Ascii.eqb c "{"
  | [] => false
  end.

End Json.

(* ================================================================= *)
(** * Notions used to state the properties *)

(** [s] occurs in [t] as a contiguous piece. *)
Definition occurs_in (s t : bytes) : Prop :=
  exists a b, t = a ++ s ++ b.

(** Some piece of [l] is a word of [r]. *)
Definition has_match (r : regex) (l : bytes) : Prop :=
  exists a u b, l = a ++ u ++ b /\ matches r u.

(** A non-empty run of decimal digits. *)
Definition digits (d : bytes) : Prop :=
  d <> [] /\ forallb is_digit d = true.

(** The text does not end with a digit. *)
Definition no_digit_at_end (a : bytes) : Prop :=
  forall x c, a = x ++ [c] -> is_digit c = false.

(** Line [j] of [ls] is a line where [heading] occurs or one of the [num]
    lines after such a line. *)
Definition within (heading : bytes) (num : nat) (ls : list bytes) (j : nat) : Prop :=
  exists i h, i <= j <= i + num /\ nth_error ls i = Some h /\ occurs_in heading h.

(** The lines of the captured screen, as the pipelines read them. *)
Definition screen_lines (OUTPUT : bytes) : list bytes := lines_of (echo OUTPUT).

(** The text has no newline; it has no NUL byte. *)
Definition nl_free (l : bytes) : Prop := ~ In nl l.
Definition nul_free (l : bytes) : Prop := ~ In nul l.

(** The windows of the report, with the heading each is found by and the
    shell variables that hold its percentage and its reset description in
    JSON mode, and its percentage in compact mode (which has no Sonnet
    window). *)
Inductive window : Type := session | week_all_models | week_sonnet.

Definition heading_of (win : window) : string :=
  match win with
  | session => "Current session"
  | week_all_models => "Current week (all models)"
  | week_sonnet => "Current week (Sonnet only)"
  end.

Definition pct_var (win : window) : string :=
  match win with
  | session => "SESSION_PCT"
  | week_all_models => "WEEK_ALL_PCT"
  | week_sonnet => "WEEK_SONNET_PCT"
  end.

Definition reset_var (win : window) : string :=
  match win with
  | session => "SESSION_RESET"
  | week_all_models => "WEEK_ALL_RESET"
  | week_sonnet => "WEEK_SONNET_RESET"
  end.

Definition compact_var (win : window) : option string :=
  match win with
  | session => Some "SESSION_PCT"%string
  | week_all_models => Some "WEEK_PCT"%string
  | week_sonnet => None
  end.

(** The pipelines of one window, as functions of the captured text. *)
Definition percent_of (heading : string) (OUTPUT : bytes) : bytes :=
  cmd_subst (echo OUTPUT |> grep_A 2 (fixed heading)
               |> grep_o percent_token |> head 1 |> tr_d "%").

Definition reset_of (heading : string) (OUTPUT : bytes) : bytes :=
  cmd_subst (echo OUTPUT |> grep_A 3 (fixed heading)
               |> grep (fixed "Resets") |> sed_s upto_Resets [] |> head 1).

Definition compact_percent_of (heading : string) (OUTPUT : bytes) : bytes :=
  cmd_subst (echo OUTPUT |> grep_A 2 (fixed heading)
               |> grep_o percent_token |> head 1).

(** [d] is the number of the first percent token in reach of [heading]:
    line [j] is the heading line or one of the [num] lines after it, the
    line reads [a d % b] with no token in [a], and no line in reach before
    it has a token. *)
Definition first_token (heading : bytes) (num : nat) (screen : list bytes) (d : bytes)
  : Prop :=
  exists j a b,
    within heading num screen j /\
    nth_error screen j = Some (a ++ d ++ lit "%" ++ b) /\
    digits d /\ ~ has_match percent_token a /\ no_digit_at_end a /\
    (forall j' l', j' < j -> within heading num screen j' ->
                   nth_error screen j' = Some l' -> ~ has_match percent_token l').

(** No line in reach of [heading] has a percent token. *)
Definition no_token (heading : bytes) (num : nat) (screen : list bytes) : Prop :=
  forall j l, within heading num screen j -> nth_error screen j = Some l ->
              ~ has_match percent_token l.

(** [l] is the first line in reach of [heading] where [word] occurs. *)
Definition first_line_with (word heading : bytes) (num : nat) (screen : list bytes)
    (l : bytes) : Prop :=
  exists j,
    within heading num screen j /\ nth_error screen j = Some l /\ occurs_in word l /\
    (forall j' l', j' < j -> within heading num screen j' ->
                   nth_error screen j' = Some l' -> ~ occurs_in word l').

(** The session name of an invocation. *)
Definition session_name (pid : nat) : bytes := lit "claude-usage-" ++ decimal pid.

(** The commands of the three scripts up to the teardown. *)
Definition choreography (pid : nat) : list command :=
  [ tmux_new_session (session_name pid) (lit "claude");
    sleep 4;
    tmux_send_keys (session_name pid) (lit "/usage");
    sleep 1;
    tmux_send_keys (session_name pid) (lit "Enter");
    sleep 3 ].

(** The screen text an invocation captures: what [capture-pane] prints
    after the choreography, through the command substitution. *)
Definition captured (w : world) (pid : nat) : bytes :=
  cmd_subst (printed w (choreography pid) (tmux_capture_pane (session_name pid))).

(** The value of a run of digits. *)
Definition decimal_value (d : bytes) : N :=
  fold_left (fun acc c => (10 * acc + (N_of_ascii c - 48))%N) d 0%N.

(** A field [p] of the compact line, printed for the variable [v] on the
    screen [OUTPUT]: the placeholder when the variable is empty, else the
    variable, which is digits and [%] as they stand on the screen. *)
Definition compact_field (p v OUTPUT : bytes) : Prop :=
  (v = [] /\ p = lit "?") \/
  (exists d, digits d /\ v = d ++ lit "%" /\ p = v /\ occurs_in v OUTPUT).

(** The commands that tear a session down. *)
Definition is_kill (c : command) : bool :=
  match c with
  | tmux_kill_session _ => true
  | _ => false
  end.


(** The history [h] tears the session [name] down exactly once: one
    [kill-session] in all, for [name], after the session was created and
    the pane captured, and no tmux command after it. *)
Definition torn_down_once (name : bytes) (h : list command) : Prop :=
  length (filter is_kill h) = 1 /\
  exists before after,
    h = before ++ tmux_kill_session name :: after /\
    In (tmux_new_session name (lit "claude")) before /\
    In (tmux_capture_pane name) before /\
    Forall (fun c => c = date_Iseconds) after.

(** The screen of the scenario of the specification. *)
Definition scenario : bytes :=
  lit "Current session" ++ [nl] ++ lit "  45% used" ++ [nl]
  ++ lit "  Resets 2h 30m" ++ [nl].

(** A time of day, as [date -Iseconds] prints it. *)
Definition noon : bytes := lit "2026-01-01T12:00:00+00:00".

(** A screen whose reset line ends right after [Resets]. *)
Definition bare_Resets : bytes :=
  lit "Current session" ++ [nl] ++ lit "  Resets" ++ [nl].

(** A screen that shows 150%. *)
Definition over_the_limit : bytes :=
  lit "Current session" ++ [nl] ++ lit "  150% used" ++ [nl].

(** A screen whose reset description is quoted. *)
Definition quoted_reset : bytes :=
  lit "Current session" ++ [nl] ++ lit "  45% used" ++ [nl]
  ++ lit "  Resets " ++ [dq] ++ lit "soon" ++ [dq] ++ [nl].

(** A screen whose percentage has leading zeros. *)
Definition leading_zeros : bytes :=
  lit "Current session" ++ [nl] ++ lit "  007% used" ++ [nl].





(* ================================================================= *)
(** * [ResetTimer.tsx] *)

Module ResetTimer.

(** The numbers of [calculateTimeRemaining] are times in milliseconds:
    integers, or NaN ([None]) when [resetsAt] is not a date.  Below 2^53
    the arithmetic of the component is exact on them. *)
Definition num : Type := option Z.

Definition sub (a b : num) : num :=
  match a, b with
  | Some x, Some y => Some (x - y)%Z
  | _, _ => None
  end.

(** [x <= 0] and [x > 0]: false on NaN. *)
Definition le_0 (x : num) : bool :=
  match x with
  | Some z => (z <=? 0)%Z
  | None => false
  end.

Definition gt_0 (x : num) : bool :=
  match x with
  | Some z => (0 <? z)%Z
  | None => false
  end.

(** [Math.floor(x / k)] and [x % k], for a positive constant [k]. *)
Definition floor_div (x : num) (k : Z) : num :=
  match x with
  | Some z => Some (z / k)%Z
  | None => None
  end.

Definition rem (x : num) (k : Z) : num :=
  match x with
  | Some z => Some (Z.rem z k)
  | None => None
  end.

(** A number inside a template literal. *)
Definition to_string (x : num) : bytes :=
  match x with
  | Some z => lit (NilZero.string_of_int (Z.to_int z))
  | None => lit "NaN"
  end.

(** The text that [calculateTimeRemaining] gives to [setTimeRemaining];
    [resetTime] is [new Date(resetsAt).getTime()], [now] is [Date.now()]. *)
Definition calculateTimeRemaining (resetTime now : num) : bytes :=
  let diff := sub resetTime now in
  if le_0 diff then lit "Resetting..."
  else
    let days := floor_div diff (1000 * 60 * 60 * 24) in
    let hours := floor_div (rem diff (1000 * 60 * 60 * 24)) (1000 * 60 * 60) in
    let minutes := floor_div (rem diff (1000 * 60 * 60)) (1000 * 60) in
    lit "Resets in "
    ++ (if gt_0 days then to_string days ++ lit "d " ++ to_string hours ++ lit "h"
        else if gt_0 hours then to_string hours ++ lit "h " ++ to_string minutes ++ lit "m"
        else to_string minutes ++ lit "m").

Definition MINUTE : Z := 1000 * 60.
Definition HOUR : Z := 1000 * 60 * 60.
Definition DAY : Z := 1000 * 60 * 60 * 24.

End ResetTimer.

(* ================================================================= *)
(** * [useUsageData.ts] *)

Module WidgetData.

Record UsageMetric : Type := {
  percent : UsageBar.number;
  resetsAt : string
}.

Record TokenStats : Type := {
  todayTokens : UsageBar.number;
  weekTokens : UsageBar.number;
  todayMessages : UsageBar.number;
  weekMessages : UsageBar.number
}.

Record t : Type := {
  fiveHour : option UsageMetric;
  sevenDay : option UsageMetric;
  sevenDaySonnet : option UsageMetric;
  sevenDayOpus : option UsageMetric;
  tokenStats : TokenStats;
  lastUpdated : string;
  error : option string
}.

End WidgetData.

(** A string or null as a condition: null and the empty string are
    false. *)
Definition truthy (s : option string) : bool :=
  match s with
  | Some EmptyString | None => false
  | Some _ => true
  end.

Module useUsageData.

(** The state of the hook. *)
Record state : Type := {
  data : option WidgetData.t;
  loading : bool;
  error : option string
}.

(** [useState(null)], [useState(true)], [useState(null)]. *)
Definition initial : state := {| data := None; loading := true; error := None |}.

(** How [invoke("get_usage_data")] ends: with a result, or with an
    exception, of which the message is kept. *)
Inductive outcome : Type :=
| Resolved (result : WidgetData.t)
| Rejected (message : string).

(** [fetchData] runs in two steps, with the [await] between them: the
    first sets [loading]; the second, when the call has ended, sets the
    data and the error and, in [finally], clears [loading].  Several
    fetches (the poll and a refresh) may be under way at once; their steps
    interleave but each step runs alone. *)
Inductive step : Type :=
| Started
| Settled (o : outcome).

Definition fetchData (st : state) (s : step) : state :=
  match s with
  | Started => {| data := data st; loading := true; error := error st |}
  | Settled (Resolved result) =>
      {| data := Some result;
         loading := false;
         error := if truthy (WidgetData.error result)
                  then WidgetData.error result else None |}
  | Settled (Rejected message) =>
      {| data := data st; loading := false; error := Some message |}
  end.

(** The state after the steps of any number of fetches. *)
Definition after (steps : list step) (st : state) : state :=
  fold_left fetchData steps st.

End useUsageData.

(* ================================================================= *)
(** * [UsageWidget.tsx] *)

Module UsageWidget.

(** A usage section: its label, the bar and the [resetsAt] of its timer. *)
Record section : Type := {
  usage_label : string;
  bar : UsageBar.rendering;
  timer : string
}.

Record content : Type := {
  sections : list section;
  stats : WidgetData.TokenStats;
  api_error : option string
}.

(** What the widget renders: the class of the root, the state of the
    refresh button and of its icon, and the three blocks, each present or
    not. *)
Record view : Type := {
  dragging : bool;
  refresh_disabled : bool;
  icon_spinning : bool;
  widget_error : option string;
  widget_loading : bool;
  widget_content : option content
}.

Definition usage_section (label : string) (v : UsageBar.variant)
    (m : option WidgetData.UsageMetric) : list section :=
  match m with
  | Some metric =>
      [ {| usage_label := label;
           bar := UsageBar.UsageBar (WidgetData.percent metric) v;
           timer := WidgetData.resetsAt metric |} ]
  | None => []
  end.

Definition UsageWidget (data : option WidgetData.t) (loading : bool)
    (error : option string) (isDragging : bool) : view :=
  {| dragging := isDragging;
     refresh_disabled := loading;
     icon_spinning := loading;
     widget_error :=
       match data with
       | None => if truthy error then error else None
       | Some _ => None
       end;
     widget_loading :=
       match data with
       | None => loading
       | Some _ => false
       end;
     widget_content :=
       match data with
       | Some d =>
           Some {| sections :=
                     usage_section "5-Hour Window" UsageBar.default (WidgetData.fiveHour d)
                     ++ usage_section "Weekly (All Models)" UsageBar.default
                          (WidgetData.sevenDay d)
                     ++ usage_section "Weekly (Sonnet)" UsageBar.default
                          (WidgetData.sevenDaySonnet d)
                     ++ usage_section "Weekly (Opus)" UsageBar.opus
                          (WidgetData.sevenDayOpus d);
                   stats := WidgetData.tokenStats d;
                   api_error := if truthy (WidgetData.error d)
                                then WidgetData.error d else None |}
       | None => None
       end |}.

(** [App]: the widget on the state of the hook. *)
Definition App (st : useUsageData.state) (isDragging : bool) : view :=
  UsageWidget (useUsageData.data st) (useUsageData.loading st)
    (useUsageData.error st) isDragging.

End UsageWidget.

(* ================================================================= *)
(** * More notions for the scripts *)

(** The words that [claude-usage.sh] looks for. *)
Definition has_usage_word (l : bytes) : Prop :=
  occurs_in (lit "Current session") l \/ occurs_in (lit "Current week") l \/
  occurs_in (lit "% used") l \/ occurs_in (lit "Resets") l.

(** [v] is [l] without its leading blanks. *)
Definition stripped (l v : bytes) : Prop :=
  exists u, l = u ++ v /\ forallb is_space u = true /\
            (forall c rest, v = c :: rest -> is_space c = false).

(** The session name on the command line of a tmux command: the argument
    of [-s] for [new-session], of [-t] for the others.  It is the text the
    script passes; which session tmux resolves a [-t] argument to (a
    session of that name if there is one, otherwise one whose name it is
    a prefix or pattern of) is not modelled. *)
Definition session_argument (c : command) : option bytes :=
  match c with
  | tmux_new_session name _ => Some name
  | tmux_send_keys t _ => Some t
  | tmux_capture_pane t => Some t
  | tmux_kill_session t => Some t
  | sleep _ | date_Iseconds => None
  end.

(** A text that can stand between the quotes of a JSON string as it is:
    no quote, no backslash, no control character. *)
Definition plain_char (c : ascii) : bool :=
  negb (Ascii.eqb c dq) && negb (Ascii.eqb c "\") && negb (nat_of_ascii c <? 32).

Definition plain (s : bytes) : Prop := forallb plain_char s = true.

(** A run of digits that is a JSON number: [0], or digits that do not
    start with [0]. *)
Definition json_int (p : bytes) : Prop :=
  p = lit "0" \/
  exists c d, p = c :: d /\ is_digit c = true /\ c <> "0"%char /\
              forallb is_digit d = true.

(** A screen with a percentage three lines below the heading. *)
Definition too_far : bytes :=
  lit "Current session" ++ [nl] ++ [nl] ++ [nl] ++ lit "  45% used" ++ [nl].

(** What the clock prints for the JSON script, through the command
    substitution of the here-document. *)
Definition timestamp_of (w : world) (pid : nat) : bytes :=
  cmd_subst (printed w (choreography pid
                        ++ [tmux_capture_pane (session_name pid);
                            tmux_kill_session (session_name pid)])
               date_Iseconds).

(** The digits do not start with a superfluous zero. *)
Definition no_leading_zero (p : bytes) : Prop :=
  forall rest, p = "0"%char :: rest -> rest = [].

(* ================================================================= *)
(** * Matching by derivatives computes the language *)

Section RegexFacts.

Lemma matches_Void (u : bytes) : ~ matches Void u.
Proof. intro H; inversion H. Qed.

Lemma matches_Eps (u : bytes) : matches Eps u <-> u = [].
Proof. split; intro H; [inversion H; reflexivity | subst; constructor]. Qed.

Lemma matches_Chr (c : ascii) (u : bytes) : matches (Chr c) u <-> u = [c].
Proof. split; intro H; [inversion H; reflexivity | subst; constructor]. Qed.

Lemma matches_Cls (p : ascii -> bool) (u : bytes) :
  matches (Cls p) u <-> exists c, u = [c] /\ p c = true.
Proof.
  split; intro H.
  - inversion H; subst; eauto.
  - destruct H as (c & -> & H); constructor; assumption.
Qed.

Lemma matches_Cat (r s : regex) (w : bytes) :
  matches (Cat r s) w <-> exists u v, w = u ++ v /\ matches r u /\ matches s v.
Proof.
  split; intro H.
  - inversion H; subst; eauto.
  - destruct H as (u & v & -> & Hu & Hv); constructor; assumption.
Qed.

Lemma matches_Alt (r s : regex) (w : bytes) :
  matches (Alt r s) w <-> matches r w \/ matches s w.
Proof.
  split; intro H.
  - inversion H; subst; auto.
  - destruct H; [apply MAltL | apply MAltR]; assumption.
Qed.

Lemma nullable_matches (r : regex) : nullable r = true <-> matches r [].
Proof.
  induction r; simpl.
  - split; [discriminate | intro H; inversion H].
  - split; [constructor | reflexivity].
  - split; [discriminate | intro H; inversion H].
  - split; [discriminate | intro H; inversion H].
  - rewrite andb_true_iff, IHr1, IHr2, matches_Cat. split.
    + intros [H1 H2]. exists [], []. auto.
    + intros (u & v & E & Hu & Hv). symmetry in E.
      apply app_eq_nil in E as [-> ->]. auto.
  - rewrite orb_true_iff, IHr1, IHr2, matches_Alt. tauto.
  - split; [constructor | reflexivity].
Qed.

Lemma cat_matches (r s : regex) (u : bytes) :
  matches (cat r s) u <-> matches (Cat r s) u.
Proof.
  rewrite matches_Cat.
  destruct r; simpl; try (rewrite matches_Cat; tauto).
  - split; [intro H; inversion H |].
    intros (a & b & _ & H & _). inversion H.
  - split.
    + intro H. exists [], u. repeat split; [constructor | assumption].
    + intros (a & b & -> & Ha & Hb). apply matches_Eps in Ha; subst. assumption.
Qed.

Lemma alt_matches (r s : regex) (u : bytes) :
  matches (alt r s) u <-> matches (Alt r s) u.
Proof.
  rewrite matches_Alt.
  pose proof (@matches_Void u) as V.
  destruct r, s; simpl; rewrite ?matches_Alt; tauto.
Qed.

(** A non-empty word of [r*] starts with a non-empty word of [r]. *)
Lemma matches_Star_cons (r : regex) (c : ascii) (s : bytes) :
  matches (Star r) (c :: s) ->
  exists u v, s = u ++ v /\ matches r (c :: u) /\ matches (Star r) v.
Proof.
  intro H.
  remember (Star r) as e eqn:He.
  remember (c :: s) as w eqn:Hw.
  revert c s Hw.
  induction H as [ | | | | | | | r0 u v Hu _ Hv IHv]; try discriminate; intros c0 s0 Hw.
  injection He as ->.
  destruct u as [|a u].
  - simpl in Hw. apply IHv; [reflexivity | assumption].
  - simpl in Hw. injection Hw as -> <-.
    exists u, v; auto.
Qed.

Lemma deriv_matches (c : ascii) (r : regex) :
  forall s, matches (deriv c r) s <-> matches r (c :: s).
Proof.
  induction r as [ | | a | p | r1 IH1 r2 IH2 | r1 IH1 r2 IH2 | r IH]; intro w; simpl.
  - split; intro H; inversion H.
  - split; intro H; inversion H.
  - rewrite matches_Chr. destruct (Ascii.eqb_spec c a) as [-> | Hne].
    + rewrite matches_Eps. split; intro H; [subst; reflexivity | injection H; auto].
    + split; intro H; [inversion H | injection H; intros; congruence].
  - rewrite matches_Cls. destruct (p c) eqn:Hp.
    + rewrite matches_Eps. split.
      * intros ->. eauto.
      * intros (d & E & _). injection E; auto.
    + split; [intro H; inversion H |].
      intros (d & E & Hd). injection E as -> _. congruence.
  - assert (Step : matches (cat (deriv c r1) r2) w <->
                   exists u v, w = u ++ v /\ matches r1 (c :: u) /\ matches r2 v).
    { rewrite cat_matches, matches_Cat. split; intros (u & v & E & Hu & Hv);
        exists u, v; repeat split; try assumption; apply IH1; assumption. }
    rewrite matches_Cat.
    destruct (nullable r1) eqn:Hn.
    + rewrite alt_matches, matches_Alt, Step, IH2. split.
      * intros [(u & v & -> & Hu & Hv) | H].
        -- exists (c :: u), v. auto.
        -- exists [], (c :: w). repeat split; [apply nullable_matches |]; assumption.
      * intros (u & v & E & Hu & Hv). destruct u as [|a u]; simpl in E.
        -- subst v. right; assumption.
        -- injection E as <- ->. left. exists u, v. auto.
    + rewrite Step. split.
      * intros (u & v & -> & Hu & Hv). exists (c :: u), v. auto.
      * intros (u & v & E & Hu & Hv). destruct u as [|a u]; simpl in E.
        -- apply nullable_matches in Hu. congruence.
        -- injection E as <- ->. exists u, v. auto.
  - rewrite alt_matches, !matches_Alt, IH1, IH2. tauto.
  - rewrite cat_matches, matches_Cat. split.
    + intros (u & v & -> & Hu & Hv).
      change (c :: u ++ v) with ((c :: u) ++ v).
      constructor; [apply IH |]; assumption.
    + intro H. apply matches_Star_cons in H as (u & v & -> & H1 & H2).
      exists u, v. repeat split; [apply IH |]; assumption.
Qed.

Lemma accepts_matches (r : regex) (s : bytes) :
  accepts r s = true <-> matches r s.
Proof.
  revert r; induction s as [|c s IH]; intro r; simpl.
  - apply nullable_matches.
  - rewrite IH. apply deriv_matches.
Qed.

Lemma longest_prefix_found (s : bytes) :
  forall (r : regex) (m : nat),
    m <= length s -> matches r (firstn m s) -> longest_prefix r s <> None.
Proof.
  induction s as [|a s IH]; intros r m Hm Hr; simpl.
  - rewrite firstn_nil in Hr. apply nullable_matches in Hr. rewrite Hr. discriminate.
  - destruct m as [|m]; simpl in *.
    + apply nullable_matches in Hr. rewrite Hr.
      destruct (longest_prefix (deriv a r) s); discriminate.
    + apply deriv_matches in Hr.
      specialize (IH (deriv a r) m ltac:(lia) Hr).
      destruct (longest_prefix (deriv a r) s); [discriminate | congruence].
Qed.

(** [longest_prefix] finds a prefix in the language, and no longer one is. *)
Lemma longest_prefix_Some (r : regex) (s : bytes) (n : nat) :
  longest_prefix r s = Some n <->
  n <= length s /\ matches r (firstn n s) /\
  (forall m, n < m <= length s -> ~ matches r (firstn m s)).
Proof.
  revert r n; induction s as [|c s IH]; intros r n; simpl.
  - destruct (nullable r) eqn:Hn; split.
    + intro H; injection H as <-.
      split; [lia | split; [apply nullable_matches, Hn | intros; lia]].
    + intros (Hle & _ & _). f_equal; lia.
    + discriminate.
    + intros (Hle & Hm & _). rewrite firstn_nil in Hm.
      apply nullable_matches in Hm; congruence.
  - destruct (longest_prefix (deriv c r) s) as [k|] eqn:Hk.
    + apply IH in Hk as (Hle & Hm & Hmax). split.
      * intro H; injection H as <-. simpl. split; [| split].
        -- lia.
        -- apply deriv_matches, Hm.
        -- intros m Hlt. destruct m as [|m]; [lia|]. simpl.
           rewrite <- deriv_matches. apply Hmax; lia.
      * intros (Hle' & Hm' & Hmax').
        destruct (Nat.lt_trichotomy n (S k)) as [Hlt | [-> | Hgt]]; [| reflexivity |].
        -- exfalso. apply (Hmax' (S k)); [lia|]. simpl. apply deriv_matches, Hm.
        -- exfalso. destruct n as [|n]; [lia|]. simpl in Hm'.
           apply (Hmax n); [lia|]. apply deriv_matches, Hm'.
    + assert (Hnone : forall m, m <= length s -> ~ matches (deriv c r) (firstn m s)).
      { intros m Hm Hmat. exact (longest_prefix_found s (deriv c r) m Hm Hmat Hk). }
      destruct (nullable r) eqn:Hn; split.
      * intro H; injection H as <-. simpl. split; [| split].
        -- lia.
        -- apply nullable_matches, Hn.
        -- intros m Hlt. destruct m as [|m]; [lia|]. simpl.
           rewrite <- deriv_matches. apply Hnone; lia.
      * intros (Hle & Hm & _). destruct n as [|n]; [reflexivity|]. simpl in Hm.
        exfalso. apply (Hnone n); [lia|]. apply deriv_matches, Hm.
      * discriminate.
      * intros (Hle & Hm & _). destruct n as [|n]; simpl in Hm.
        -- apply nullable_matches in Hm; congruence.
        -- exfalso. apply (Hnone n); [lia|]. apply deriv_matches, Hm.
Qed.

Lemma longest_prefix_None (r : regex) (s : bytes) :
  longest_prefix r s = None <->
  (forall m, m <= length s -> ~ matches r (firstn m s)).
Proof.
  split.
  - intros H m Hm Hmat. exact (longest_prefix_found s r m Hm Hmat H).
  - intro H. destruct (longest_prefix r s) as [n|] eqn:E; [| reflexivity].
    apply longest_prefix_Some in E as (Hle & Hm & _).
    exfalso. exact (H n Hle Hm).
Qed.

Lemma firstn_prefix (u v : bytes) : firstn (length u) (u ++ v) = u.
Proof.
  rewrite firstn_app, firstn_all, Nat.sub_diag. simpl. apply app_nil_r.
Qed.

(** The same, with the line cut in two at the end of the match. *)
Lemma longest_prefix_split (r : regex) (l : bytes) (n : nat) :
  longest_prefix r l = Some n ->
  exists u v,
    l = u ++ v /\ length u = n /\ matches r u /\
    (forall u' v', l = u' ++ v' -> n < length u' -> ~ matches r u').
Proof.
  intro H. apply longest_prefix_Some in H as (Hle & Hm & Hmax).
  exists (firstn n l), (skipn n l). split; [| split; [| split]].
  - symmetry. apply firstn_skipn.
  - rewrite length_firstn. lia.
  - assumption.
  - intros u' v' -> Hlt Hu'. apply (Hmax (length u')).
    + rewrite length_app. lia.
    + rewrite firstn_prefix. assumption.
Qed.

Lemma skipn_prefix (u v : bytes) : skipn (length u) (u ++ v) = v.
Proof.
  rewrite skipn_app, skipn_all, Nat.sub_diag. reflexivity.
Qed.

End RegexFacts.

(* ================================================================= *)
(** * The languages of the patterns, and searching *)

Section Languages.

Lemma matches_Lit (s u : bytes) : matches (Lit s) u <-> u = s.
Proof.
  revert u; induction s as [|c s IH]; intro u; simpl.
  - apply matches_Eps.
  - rewrite matches_Cat. split.
    + intros (a & b & -> & Ha & Hb).
      apply matches_Chr in Ha. apply IH in Hb. subst. reflexivity.
    + intros ->. exists [c], s. repeat split; [constructor | apply IH; reflexivity].
Qed.

Lemma matches_Star_Cls (p : ascii -> bool) (u : bytes) :
  matches (Star (Cls p)) u <-> forallb p u = true.
Proof.
  split.
  - intro H. remember (Star (Cls p)) as e eqn:He.
    induction H as [ | | | | | | | r a b Ha _ Hb IHb]; try discriminate.
    + reflexivity.
    + injection He as ->. apply matches_Cls in Ha as (c & -> & Hc).
      simpl. rewrite Hc. apply IHb. reflexivity.
  - induction u as [|c u IH]; simpl; intro H.
    + constructor.
    + apply andb_true_iff in H as [Hc Hu].
      change (c :: u) with ([c] ++ u).
      constructor; [constructor; assumption | apply IH; assumption].
Qed.

Lemma matches_Star_Any (u : bytes) : matches (Star Any) u.
Proof.
  apply matches_Star_Cls. induction u; simpl; auto.
Qed.

Lemma matches_percent_token (u : bytes) :
  matches percent_token u <-> exists d, digits d /\ u = d ++ lit "%".
Proof.
  unfold percent_token, Plus, digits. rewrite matches_Cat. split.
  - intros (a & b & -> & Ha & Hb).
    apply matches_Chr in Hb. subst b.
    apply matches_Cat in Ha as (x & y & -> & Hx & Hy).
    apply matches_Cls in Hx as (c & -> & Hc).
    apply matches_Star_Cls in Hy.
    exists ([c] ++ y). repeat split.
    + discriminate.
    + simpl. rewrite Hc. assumption.
  - intros (d & [Hne Hd] & ->).
    exists d, (lit "%"). repeat split; [| constructor].
    destruct d as [|c d]; [congruence|].
    simpl in Hd. apply andb_true_iff in Hd as [Hc Hd].
    change (c :: d) with ([c] ++ d).
    constructor; [constructor; assumption | apply matches_Star_Cls; assumption].
Qed.

Lemma matches_upto (s u : bytes) :
  matches (Cat (Star Any) (Lit s)) u <-> exists a, u = a ++ s.
Proof.
  rewrite matches_Cat. split.
  - intros (a & b & -> & _ & Hb). apply matches_Lit in Hb. subst. eauto.
  - intros (a & ->). exists a, s.
    repeat split; [apply matches_Star_Any | apply matches_Lit; reflexivity].
Qed.

(** Searching without anchors. *)
Lemma no_prefix_matches (r : regex) (s : bytes) :
  longest_prefix r s = None <-> (forall u b, s = u ++ b -> ~ matches r u).
Proof.
  rewrite longest_prefix_None. split.
  - intros H u b -> Hu. apply (H (length u)).
    + rewrite length_app. lia.
    + rewrite firstn_app, firstn_all, Nat.sub_diag. simpl.
      rewrite app_nil_r. assumption.
  - intros H m Hm Hmat. apply (H (firstn m s) (skipn m s)); [| assumption].
    symmetry. apply firstn_skipn.
Qed.

Lemma has_match_nil (r : regex) : has_match r [] <-> matches r [].
Proof.
  unfold has_match. split.
  - intros (a & u & b & E & Hu). symmetry in E.
    apply app_eq_nil in E as [-> E]. apply app_eq_nil in E as [-> ->]. assumption.
  - intro H. exists [], [], []. auto.
Qed.

Lemma has_match_cons (r : regex) (c : ascii) (s : bytes) :
  has_match r (c :: s) <->
  (exists u b, c :: s = u ++ b /\ matches r u) \/ has_match r s.
Proof.
  unfold has_match. split.
  - intros (a & u & b & E & Hu). destruct a as [|a0 a]; simpl in E.
    + left. eauto.
    + injection E as <- ->. right. eauto.
  - intros [(u & b & E & Hu) | (a & u & b & -> & Hu)].
    + exists [], u, b. auto.
    + exists (c :: a), u, b. auto.
Qed.

Lemma search_from_Some (r : regex) (s : bytes) (x : nat * nat) :
  search_from (unanchored r) s = Some x -> has_match r s.
Proof.
  revert x; induction s as [|c s IH]; intro x.
  - simpl. unfold match_here; simpl.
    destruct (nullable r) eqn:Hn; [| discriminate].
    intros _. apply has_match_nil, nullable_matches, Hn.
  - change (search_from (unanchored r) (c :: s))
      with (match longest_prefix r (c :: s) with
            | Some n => Some (0, n)
            | None => match search_from (unanchored r) s with
                      | Some (i, n) => Some (S i, n)
                      | None => None
                      end
            end).
    destruct (longest_prefix r (c :: s)) as [n|] eqn:Hl.
    + intros _. apply longest_prefix_Some in Hl as (_ & Hm & _).
      exists [], (firstn n (c :: s)), (skipn n (c :: s)). split; [| assumption].
      symmetry. exact (firstn_skipn n (c :: s)).
    + destruct (search_from (unanchored r) s) as [[i n]|]; [| discriminate].
      intros _. apply has_match_cons. right. eapply IH. reflexivity.
Qed.

Lemma search_from_None (r : regex) (s : bytes) :
  search_from (unanchored r) s = None -> ~ has_match r s.
Proof.
  induction s as [|c s IH].
  - simpl. unfold match_here; simpl.
    destruct (nullable r) eqn:Hn; [discriminate |].
    intros _ H. apply has_match_nil, nullable_matches in H. congruence.
  - change (search_from (unanchored r) (c :: s))
      with (match longest_prefix r (c :: s) with
            | Some n => Some (0, n)
            | None => match search_from (unanchored r) s with
                      | Some (i, n) => Some (S i, n)
                      | None => None
                      end
            end).
    destruct (longest_prefix r (c :: s)) as [n|] eqn:Hl; [discriminate |].
    destruct (search_from (unanchored r) s) as [[i n]|]; [discriminate |].
    intros _ H. apply has_match_cons in H as [(u & b & E & Hu) | H].
    + exact (proj1 (no_prefix_matches r (c :: s)) Hl u b E Hu).
    + exact (IH eq_refl H).
Qed.

Lemma selects_unanchored (r : regex) (l : bytes) :
  selects (unanchored r) l = true <-> has_match r l.
Proof.
  unfold selects, search. simpl.
  destruct (search_from (unanchored r) l) eqn:E.
  - split; [| reflexivity]. intros _. eapply search_from_Some. eassumption.
  - split; [discriminate |]. intro H.
    apply search_from_None in E. contradiction.
Qed.

Lemma selects_fixed (s : string) (l : bytes) :
  selects (fixed s) l = true <-> occurs_in (lit s) l.
Proof.
  unfold fixed. rewrite selects_unanchored. unfold has_match, occurs_in. split.
  - intros (a & u & b & -> & Hu). apply matches_Lit in Hu. subst. eauto.
  - intros (a & b & ->). exists a, (lit s), b.
    split; [reflexivity | apply matches_Lit; reflexivity].
Qed.

End Languages.

(* ================================================================= *)
(** * Text, lines and command substitution *)

Section Text.

Lemma occurs_in_refl (s : bytes) : occurs_in s s.
Proof. exists [], []. simpl. rewrite app_nil_r. reflexivity. Qed.

Lemma occurs_in_trans (s t u : bytes) :
  occurs_in s t -> occurs_in t u -> occurs_in s u.
Proof.
  intros (a & b & ->) (a' & b' & ->).
  exists (a' ++ a), (b ++ b'). rewrite !app_assoc. reflexivity.
Qed.

Lemma occurs_in_cons (s t : bytes) (c : ascii) :
  occurs_in s t -> occurs_in s (c :: t).
Proof. intros (a & b & ->). exists (c :: a), b. reflexivity. Qed.

Lemma occurs_in_In (s t : bytes) (c : ascii) :
  occurs_in s t -> In c s -> In c t.
Proof.
  intros (a & b & ->) H. apply in_or_app. right. apply in_or_app. left. assumption.
Qed.

(** A piece that lacks the last character lies before it. *)
Lemma occurs_in_snoc (s t : bytes) (c : ascii) :
  occurs_in s (t ++ [c]) -> ~ In c s -> occurs_in s t.
Proof.
  intros (a & b & E) Hc.
  destruct b as [|x b' _] using rev_ind.
  - rewrite app_nil_r in E.
    destruct s as [|y s' _] using rev_ind.
    + exists t, []. rewrite app_nil_r. reflexivity.
    + rewrite app_assoc in E. apply app_inj_tail in E as [_ <-].
      exfalso. apply Hc. apply in_or_app. right. left. reflexivity.
  - rewrite !app_assoc in E. apply app_inj_tail in E as [E _].
    exists a, b'. rewrite app_assoc. assumption.
Qed.

Lemma lines_of_line (l t : bytes) :
  nl_free l -> lines_of (l ++ nl :: t) = l :: lines_of t.
Proof.
  unfold nl_free. induction l as [|c l IH]; intro H; simpl.
  - reflexivity.
  - destruct (Ascii.eqb_spec c nl) as [-> | Hc].
    + exfalso. apply H. left. reflexivity.
    + rewrite IH; [reflexivity |]. intro Hin. apply H. right. assumption.
Qed.

Lemma lines_of_nl_free (t : bytes) : Forall nl_free (lines_of t).
Proof.
  induction t as [|c t IH]; simpl.
  - constructor.
  - destruct (Ascii.eqb_spec c nl) as [-> | Hc].
    + constructor; [intros [] | assumption].
    + destruct (lines_of t) as [|l ls].
      * constructor; [| constructor]. intros [E | []]. congruence.
      * inversion IH as [|? ? Hl Hls]; subst. constructor; [| assumption].
        intros [E | Hin]; [congruence | exact (Hl Hin)].
Qed.

Lemma lines_of_unlines (ls : list bytes) :
  Forall nl_free ls -> lines_of (unlines ls) = ls.
Proof.
  induction 1 as [|l ls Hl _ IH]; simpl.
  - reflexivity.
  - unfold unlines in *. simpl. rewrite <- app_assoc. simpl.
    rewrite lines_of_line, IH; [reflexivity | assumption].
Qed.

Lemma first_line_prefix (t l : bytes) (ls : list bytes) :
  lines_of t = l :: ls -> exists b, t = l ++ b.
Proof.
  revert l ls; induction t as [|c t IH]; intros l ls; simpl.
  - discriminate.
  - destruct (Ascii.eqb_spec c nl) as [-> | Hc].
    + intro E; injection E as <- _. exists (nl :: t). reflexivity.
    + destruct (lines_of t) as [|x xs] eqn:Ex.
      * intro E; injection E as <- _.
        destruct t as [|d t]; [exists []; reflexivity |].
        exfalso. simpl in Ex. destruct (Ascii.eqb d nl); [discriminate |].
        destruct (lines_of t); discriminate.
      * intro E; injection E as <- _.
        destruct (IH x xs eq_refl) as (b & ->). exists b. reflexivity.
Qed.

Lemma line_occurs (t l : bytes) : In l (lines_of t) -> occurs_in l t.
Proof.
  revert l; induction t as [|c t IH]; intro l; simpl.
  - intros [].
  - destruct (Ascii.eqb_spec c nl) as [-> | Hc].
    + intros [<- | Hin].
      * exists [], (nl :: t). reflexivity.
      * apply occurs_in_cons, IH, Hin.
    + destruct (lines_of t) as [|x xs] eqn:Ex.
      * intros [<- | []].
        destruct t as [|d t]; [apply occurs_in_refl |].
        exfalso. simpl in Ex. destruct (Ascii.eqb d nl); [discriminate |].
        destruct (lines_of t); discriminate.
      * intros [<- | Hin].
        -- destruct (first_line_prefix t x xs Ex) as (b & ->).
           exists [], b. reflexivity.
        -- apply occurs_in_cons, IH. right. assumption.
Qed.

(** What [echo] prints is its argument and a newline, or at most a newline. *)
Lemma echo_cases (arg : bytes) :
  echo arg = arg ++ [nl] \/ echo arg = [nl] \/ echo arg = [].
Proof.
  unfold echo. destruct (echo_options arg) as [fs|]; [| auto].
  destruct (existsb (Ascii.eqb "n") fs); auto.
Qed.

Lemma screen_line_occurs (OUTPUT l : bytes) :
  In l (screen_lines OUTPUT) -> occurs_in l OUTPUT.
Proof.
  unfold screen_lines. intro Hin.
  pose proof (lines_of_nl_free (echo OUTPUT)) as Hfree.
  rewrite Forall_forall in Hfree. specialize (Hfree l Hin).
  destruct (echo_cases OUTPUT) as [E | [E | E]]; rewrite E in Hin.
  - apply line_occurs in Hin. apply occurs_in_snoc with (c := nl); assumption.
  - simpl in Hin. destruct Hin as [<- | []]. exists [], OUTPUT. reflexivity.
  - destruct Hin.
Qed.

Lemma screen_lines_nl_free (OUTPUT : bytes) : Forall nl_free (screen_lines OUTPUT).
Proof. apply lines_of_nl_free. Qed.

(** Command substitution. *)
Lemma drop_newlines_incl (t : bytes) (c : ascii) :
  In c (drop_newlines t) -> In c t.
Proof.
  induction t as [|d t IH]; simpl; [auto |].
  destruct (Ascii.eqb d nl); [right; auto | auto].
Qed.

Lemma cmd_subst_nul_free (t : bytes) : nul_free (cmd_subst t).
Proof.
  unfold nul_free, cmd_subst, strip_trailing_newlines. intro H.
  apply in_rev, drop_newlines_incl, in_rev, filter_In in H as [_ H].
  rewrite Ascii.eqb_refl in H. discriminate.
Qed.

Lemma cmd_subst_nil : cmd_subst [] = [].
Proof. reflexivity. Qed.

Lemma cmd_subst_line (l : bytes) :
  nl_free l -> nul_free l -> cmd_subst (l ++ [nl]) = l.
Proof.
  unfold nl_free, nul_free, cmd_subst, strip_trailing_newlines. intros Hnl Hnul.
  assert (F : filter (fun c => negb (Ascii.eqb c nul)) (l ++ [nl]) = l ++ [nl]).
  { apply forallb_filter_id. apply forallb_forall. intros c Hc.
    apply in_app_or in Hc as [Hc | [<- | []]]; [| reflexivity].
    destruct (Ascii.eqb_spec c nul) as [-> | _]; [contradiction | reflexivity]. }
  rewrite F, rev_app_distr. simpl.
  assert (D : drop_newlines (rev l) = rev l).
  { destruct (rev l) as [|c r] eqn:E; [reflexivity |]. simpl.
    destruct (Ascii.eqb_spec c nl) as [-> | _]; [| reflexivity].
    exfalso. apply Hnl. apply in_rev. rewrite E. left. reflexivity. }
  rewrite D. apply rev_involutive.
Qed.

Lemma screen_lines_nul_free (captured l : bytes) :
  In l (screen_lines (cmd_subst captured)) -> nul_free l.
Proof.
  intros Hin Hnul. apply screen_line_occurs in Hin.
  exact (cmd_subst_nul_free captured (occurs_in_In l (cmd_subst captured) nul Hin Hnul)).
Qed.

End Text.

(* ================================================================= *)
(** * Lines of context *)

Section Context.

Lemma within_head (h x : bytes) (num j : nat) (ls : list bytes) :
  occurs_in h x -> j <= num -> within h num (x :: ls) j.
Proof. intros Hx Hj. exists 0, x. repeat split; [lia | lia | assumption]. Qed.

Lemma within_tail (h x : bytes) (num j : nat) (ls : list bytes) :
  within h num ls j -> within h num (x :: ls) (S j).
Proof.
  intros (i & l & Hi & Hl & Ho). exists (S i), l. repeat split; [lia | lia | | ]; assumption.
Qed.

Lemma within_inv (h x : bytes) (num j : nat) (ls : list bytes) :
  within h num (x :: ls) j ->
  (occurs_in h x /\ j <= num) \/ (exists j', j = S j' /\ within h num ls j').
Proof.
  intros (i & l & Hi & Hl & Ho). destruct i as [|i]; simpl in Hl.
  - injection Hl as ->. left. split; [assumption | lia].
  - right. destruct j as [|j]; [lia |]. exists j. split; [reflexivity |].
    exists i, l. repeat split; [lia | lia | |]; assumption.
Qed.

Variable f : bytes -> list bytes.
Hypothesis f_separator : f group_separator = [].
Variable heading : string.
Variable num : nat.

Local Notation "'reached' after ls j" :=
  (j < after \/ within (lit heading) num ls j)
  (at level 10, after at level 9, ls at level 9, j at level 9).

Lemma flat_map_separator (b : bool) (l : bytes) (rest : list bytes) :
  flat_map f ((if b then [group_separator] else []) ++ l :: rest)
  = f l ++ flat_map f rest.
Proof.
  destruct b; simpl; [rewrite f_separator |]; reflexivity.
Qed.

(** The first line in reach of a heading on which [f] finds something is
    the one that gives the head of the output. *)
Lemma first_in_context (ls : list bytes) :
  forall (after : nat) (used adjacent : bool) (j : nat) (l : bytes),
    after <= num ->
    nth_error ls j = Some l ->
    reached after ls j ->
    (forall j' l', j' < j -> reached after ls j' ->
                   nth_error ls j' = Some l' -> f l' = []) ->
    exists rest,
      flat_map f (grep_A_lines (fixed heading) num after used adjacent ls)
      = f l ++ rest.
Proof.
  induction ls as [|x ls IH]; intros after used adjacent j l Hafter Hj Hreach Hfirst.
  - destruct j; discriminate.
  - simpl grep_A_lines. destruct (selects (fixed heading) x) eqn:Hsel.
    + rewrite flat_map_separator. apply selects_fixed in Hsel.
      destruct j as [|j]; simpl in Hj.
      * injection Hj as ->. eauto.
      * rewrite (Hfirst 0 x); [| lia | right; apply within_head; [assumption | lia] | reflexivity].
        simpl. apply (IH num true true j l); [lia | assumption | |].
        -- destruct Hreach as [Hlt | Hw]; [left; lia |].
           apply within_inv in Hw as [[_ Hle] | (j0 & E & Hw)]; [left; lia |].
           injection E as <-. right; assumption.
        -- intros j' l' Hlt Hr Hl'. apply (Hfirst (S j') l'); [lia | | assumption].
           right. destruct Hr as [Hr | Hr].
           ++ apply within_head; [assumption | lia].
           ++ apply within_tail; assumption.
    + assert (Hno : ~ occurs_in (lit heading) x).
      { intro Ho. apply selects_fixed in Ho. congruence. }
      destruct after as [|k].
      * destruct j as [|j]; simpl in Hj.
        -- exfalso. destruct Hreach as [Hlt | Hw]; [lia |].
           apply within_inv in Hw as [[Ho _] | (j0 & E & _)]; [contradiction | discriminate].
        -- apply (IH 0 used false j l); [lia | assumption | |].
           ++ destruct Hreach as [Hlt | Hw]; [lia |].
              apply within_inv in Hw as [[Ho _] | (j0 & E & Hw)]; [contradiction |].
              injection E as <-. right; assumption.
           ++ intros j' l' Hlt Hr Hl'. apply (Hfirst (S j') l'); [lia | | assumption].
              right. destruct Hr as [Hr | Hr]; [lia | apply within_tail; assumption].
      * simpl flat_map. destruct j as [|j]; simpl in Hj.
        -- injection Hj as ->. eauto.
        -- rewrite (Hfirst 0 x); [| lia | left; lia | reflexivity].
           simpl. apply (IH k true true j l); [lia | assumption | |].
           ++ destruct Hreach as [Hlt | Hw]; [left; lia |].
              apply within_inv in Hw as [[Ho _] | (j0 & E & Hw)]; [contradiction |].
              injection E as <-. right; assumption.
           ++ intros j' l' Hlt Hr Hl'. apply (Hfirst (S j') l'); [lia | | assumption].
              destruct Hr as [Hr | Hr]; [left; lia | right; apply within_tail; assumption].
Qed.

(** When [f] finds nothing on any line in reach, the output is empty. *)
Lemma nothing_in_context (ls : list bytes) :
  forall (after : nat) (used adjacent : bool),
    after <= num ->
    (forall j l, reached after ls j -> nth_error ls j = Some l -> f l = []) ->
    flat_map f (grep_A_lines (fixed heading) num after used adjacent ls) = [].
Proof.
  induction ls as [|x ls IH]; intros after used adjacent Hafter Hnone.
  - reflexivity.
  - simpl grep_A_lines. destruct (selects (fixed heading) x) eqn:Hsel.
    + rewrite flat_map_separator. apply selects_fixed in Hsel.
      rewrite (Hnone 0 x); [| right; apply within_head; [assumption | lia] | reflexivity].
      simpl. apply IH; [lia |]. intros j l Hr Hl.
      apply (Hnone (S j) l); [| assumption]. right.
      destruct Hr as [Hr | Hr]; [apply within_head; [assumption | lia] | apply within_tail; assumption].
    + destruct after as [|k].
      * apply IH; [lia |]. intros j l Hr Hl.
        apply (Hnone (S j) l); [| assumption]. right.
        destruct Hr as [Hr | Hr]; [lia | apply within_tail; assumption].
      * simpl flat_map. rewrite (Hnone 0 x); [| left; lia | reflexivity].
        simpl. apply IH; [lia |]. intros j l Hr Hl.
        apply (Hnone (S j) l); [| assumption].
        destruct Hr as [Hr | Hr]; [left; lia | right; apply within_tail; assumption].
Qed.

End Context.

Section ContextLines.

(** Every line [grep -A] prints is a line of its input or the separator. *)
Lemma grep_A_lines_In (p : pattern) (num : nat) (ls : list bytes) :
  forall (after : nat) (used adjacent : bool) (l : bytes),
    In l (grep_A_lines p num after used adjacent ls) ->
    l = group_separator \/ In l ls.
Proof.
  induction ls as [|x ls IH]; intros after used adjacent l; simpl.
  - intros [].
  - destruct (selects p x).
    + intro Hin. apply in_app_or in Hin as [Hin | [<- | Hin]].
      * destruct (used && negb adjacent); [| destruct Hin].
        destruct Hin as [<- | []]. left; reflexivity.
      * right; left; reflexivity.
      * apply IH in Hin as [-> | Hin]; [left; reflexivity | right; right; assumption].
    + destruct after as [|k].
      * intro Hin. apply IH in Hin as [-> | Hin]; [left; reflexivity | right; right; assumption].
      * intros [<- | Hin]; [right; left; reflexivity |].
        apply IH in Hin as [-> | Hin]; [left; reflexivity | right; right; assumption].
Qed.


End ContextLines.

(* ================================================================= *)
(** * Percent tokens *)

Section Tokens.

Lemma is_digit_not_percent (c : ascii) : is_digit c = true -> c <> "%"%char.
Proof. intros H ->. discriminate. Qed.

Lemma percent_token_not_nullable (u : bytes) : matches percent_token u -> u <> [].
Proof.
  intros H ->. apply nullable_matches in H. discriminate.
Qed.

(** What [grep -o] prints are words of the expression, cut from the line. *)
Lemma only_matching_sound (r : regex) (s : bytes) :
  forall (skip : nat) (u : bytes),
    In u (only_matching r skip s) -> matches r u /\ occurs_in u s.
Proof.
  induction s as [|c s IH]; intros skip u; simpl.
  - intros [].
  - assert (Tail : forall k, In u (only_matching r k s) ->
                             matches r u /\ occurs_in u (c :: s)).
    { intros k Hk. apply IH in Hk as [Hm Ho].
      split; [assumption | apply occurs_in_cons; assumption]. }
    destruct skip as [|k]; [| apply Tail].
    destruct (longest_prefix (deriv c r) s) as [n|] eqn:Hl.
    + intros [<- | Hin]; [| eapply Tail; eassumption].
      apply longest_prefix_Some in Hl as (_ & Hm & _). split.
      * apply deriv_matches. assumption.
      * exists [], (skipn n s). simpl. rewrite firstn_skipn. reflexivity.
    + destruct (nullable r); apply Tail.
Qed.

Lemma only_matching_0 (r : regex) (c : ascii) (s : bytes) :
  only_matching r 0 (c :: s)
  = match longest_prefix r (c :: s) with
    | Some (S n) => firstn (S n) (c :: s) :: only_matching r n s
    | _ => only_matching r 0 s
    end.
Proof. reflexivity. Qed.

Lemma only_matching_none (r : regex) (s : bytes) :
  ~ has_match r s -> only_matching r 0 s = [].
Proof.
  induction s as [|c s IH]; intro Hno; [reflexivity |].
  assert (Hs : ~ has_match r s).
  { intro H. apply Hno. apply has_match_cons. right. assumption. }
  rewrite only_matching_0.
  destruct (longest_prefix r (c :: s)) as [[|n]|] eqn:Hl; try (apply IH; assumption).
  exfalso. apply Hno. apply longest_prefix_Some in Hl as (_ & Hm & _).
  exists [], (firstn (S n) (c :: s)), (skipn (S n) (c :: s)).
  split; [| assumption]. symmetry. exact (firstn_skipn (S n) (c :: s)).
Qed.

Lemma digits_then_percent (d d' y : bytes) (c : ascii) :
  d ++ [c] ++ y = d' ++ [c] -> y <> [] -> In c d'.
Proof.
  intros E Hy. destruct y as [|z y' _] using rev_ind; [congruence |].
  rewrite !app_assoc in E. apply app_inj_tail in E as [<- _].
  apply in_or_app. left. apply in_or_app. right. left. reflexivity.
Qed.

Lemma digits_no_percent (d : bytes) : forallb is_digit d = true -> ~ In "%"%char d.
Proof.
  intros Hd Hin. rewrite forallb_forall in Hd. specialize (Hd _ Hin). discriminate.
Qed.

(** At a token, the longest match is that token. *)
Lemma longest_prefix_token (d b : bytes) :
  digits d ->
  longest_prefix percent_token (d ++ lit "%" ++ b) = Some (S (length d)).
Proof.
  intros [Hne Hd]. apply longest_prefix_Some.
  assert (F : forall k, firstn (S (length d) + k) (d ++ lit "%" ++ b)
                        = d ++ [("%"%char)] ++ firstn k b).
  { intro k. rewrite firstn_app.
    replace (S (length d) + k - length d) with (S k) by lia.
    rewrite firstn_all2 by lia. reflexivity. }
  split; [| split].
  - rewrite length_app. simpl. lia.
  - specialize (F 0). rewrite Nat.add_0_r in F. rewrite F. simpl firstn.
    apply matches_percent_token. exists d. split; [split; assumption | reflexivity].
  - intros m [Hlt Hle] Hm.
    replace m with (S (length d) + (m - S (length d))) in Hm by lia.
    rewrite F in Hm. apply matches_percent_token in Hm as (d' & [_ Hd'] & E).
    apply digits_then_percent in E.
    + exact (digits_no_percent d' Hd' E).
    + rewrite length_app in Hle. simpl in Hle.
      destruct b as [|x b]; [simpl in Hle; lia |].
      destruct (m - S (length d)) eqn:Ek; [lia | discriminate].
Qed.

(** Before the first token of a line, nothing matches. *)
Lemma no_token_before (a rest : bytes) (n : nat) :
  a <> [] ->
  ~ has_match percent_token a ->
  no_digit_at_end a ->
  longest_prefix percent_token (a ++ rest) <> Some (S n).
Proof.
  intros Hne Hno Hend Hl.
  apply longest_prefix_Some in Hl as (Hle & Hm & _).
  destruct (Nat.le_gt_cases (S n) (length a)) as [Hin | Hout].
  - apply Hno. exists [], (firstn (S n) a), (skipn (S n) a). split.
    + symmetry. exact (firstn_skipn (S n) a).
    + rewrite firstn_app in Hm.
      replace (S n - length a) with 0 in Hm by lia.
      simpl firstn in Hm. rewrite app_nil_r in Hm. assumption.
  - rewrite firstn_app, firstn_all2 in Hm by lia.
    apply matches_percent_token in Hm as (d' & [_ Hd'] & E).
    destruct (firstn (S n - length a) rest) as [|z v _] eqn:Ev using rev_ind.
    + apply (f_equal (@length ascii)) in Ev. rewrite length_firstn in Ev.
      change (length (@nil ascii)) with 0 in Ev.
      rewrite length_app in Hle. lia.
    + rewrite app_assoc in E. apply app_inj_tail in E as [E _].
      destruct a as [|y a' _] using rev_ind; [congruence |].
      specialize (Hend a' y eq_refl).
      rewrite forallb_forall in Hd'.
      rewrite Hd' in Hend; [discriminate |].
      rewrite <- E. apply in_or_app. left. apply in_or_app. right. left. reflexivity.
Qed.

(** The first token of a line is the first thing [grep -o] prints for it. *)
Lemma only_matching_first (a d b : bytes) :
  digits d ->
  ~ has_match percent_token a ->
  no_digit_at_end a ->
  exists rest,
    only_matching percent_token 0 (a ++ d ++ lit "%" ++ b) = (d ++ lit "%") :: rest.
Proof.
  intro Hd. induction a as [|c a IH]; intros Hno Hend.
  - pose proof (longest_prefix_token d b Hd) as Hl.
    destruct Hd as [Hne Hd0].
    destruct d as [|x d]; [congruence |].
    cbn [app] in *. rewrite only_matching_0, Hl.
    eexists. f_equal.
    change (x :: d ++ lit "%" ++ b) with ((x :: d) ++ lit "%" ++ b).
    change (x :: d ++ lit "%") with ((x :: d) ++ lit "%").
    rewrite firstn_app.
    replace (S (length (x :: d)) - length (x :: d)) with 1 by lia.
    rewrite firstn_all2 by lia. reflexivity.
  - cbn [app]. rewrite only_matching_0.
    assert (Ha : ~ has_match percent_token a).
    { intro H. apply Hno. apply has_match_cons. right. assumption. }
    assert (Hea : no_digit_at_end a).
    { intros x y E. apply (Hend (c :: x) y). rewrite E. reflexivity. }
    destruct (longest_prefix percent_token (c :: a ++ d ++ lit "%" ++ b))
      as [[|n]|] eqn:Hl; try (apply IH; assumption).
    exfalso. revert Hl.
    change (c :: a ++ d ++ lit "%" ++ b) with ((c :: a) ++ d ++ lit "%" ++ b).
    apply no_token_before; [discriminate | assumption | assumption].
Qed.

End Tokens.

(* ================================================================= *)
(** * The substitutions and filters of the scripts *)

Section Substitutions.

Lemma search_from_here (p : pattern) (l : bytes) (n : nat) :
  match_here p l = Some n -> search_from p l = Some (0, n).
Proof. intro H. destruct l; simpl; rewrite H; reflexivity. Qed.

Lemma has_match_upto (s l : bytes) :
  has_match (Cat (Star Any) (Lit s)) l <-> occurs_in s l.
Proof.
  unfold has_match, occurs_in. split.
  - intros (a & u & b & -> & Hu). apply matches_upto in Hu as (x & ->).
    exists (a ++ x), b. rewrite <- !app_assoc. reflexivity.
  - intros (a & b & ->). exists a, s, b. split; [reflexivity |].
    apply matches_upto. exists []. reflexivity.
Qed.

(** [s/.*WORD//] leaves a line without WORD as it is. *)
Lemma substitute_upto_absent (s l : bytes) :
  ~ occurs_in s l ->
  substitute (unanchored (Cat (Star Any) (Lit s))) [] l = l.
Proof.
  intro Hno. unfold substitute, search. simpl.
  destruct (search_from (unanchored (Cat (Star Any) (Lit s))) l) as [[i n]|] eqn:E;
    [| reflexivity].
  exfalso. apply Hno. apply has_match_upto. eapply search_from_Some. eassumption.
Qed.

(** [s/.*WORD//] keeps what follows the last WORD of the line. *)
Lemma substitute_upto_last (s l : bytes) :
  s <> [] ->
  occurs_in s l ->
  exists a,
    l = a ++ s ++ substitute (unanchored (Cat (Star Any) (Lit s))) [] l /\
    ~ occurs_in s (substitute (unanchored (Cat (Star Any) (Lit s))) [] l).
Proof.
  intros Hs0 (a & b & El).
  set (r := Cat (Star Any) (Lit s)).
  destruct (longest_prefix r l) as [n|] eqn:Hl.
  - assert (Hs : substitute (unanchored r) [] l = skipn n l).
    { unfold substitute, search. simpl.
      rewrite (search_from_here (unanchored r) l n Hl). reflexivity. }
    rewrite Hs.
    apply longest_prefix_split in Hl as (u & v & -> & <- & Hm & Hmax).
    rewrite skipn_prefix.
    apply matches_upto in Hm as (x & ->). exists x. split.
    + rewrite <- !app_assoc. reflexivity.
    + intros (a' & b' & ->).
      apply (Hmax (((x ++ s) ++ a') ++ s) b').
      * rewrite <- !app_assoc. reflexivity.
      * rewrite !length_app. destruct s; [congruence | simpl; lia].
      * apply matches_upto. eauto.
  - exfalso. apply (proj1 (no_prefix_matches r l) Hl (a ++ s) b).
    + rewrite El, <- app_assoc. reflexivity.
    + apply matches_upto. eauto.
Qed.

Lemma substitute_upto_clean (s l : bytes) :
  s <> [] -> ~ occurs_in s (substitute (unanchored (Cat (Star Any) (Lit s))) [] l).
Proof.
  intros Hs Ho.
  destruct (selects (unanchored (Cat (Star Any) (Lit s))) l) eqn:E.
  - apply selects_unanchored, has_match_upto in E.
    destruct (substitute_upto_last s l Hs E) as (a & _ & Hno). contradiction.
  - assert (Hno : ~ occurs_in s l).
    { intro H. apply has_match_upto, selects_unanchored in H. congruence. }
    rewrite substitute_upto_absent in Ho; [contradiction | assumption].
Qed.

(** Every piece of a substitution by nothing comes from the line. *)
Lemma substitute_nil_incl (p : pattern) (l : bytes) (c : ascii) :
  In c (substitute p [] l) -> In c l.
Proof.
  unfold substitute. destruct (search p l) as [[i n]|]; [| auto].
  intro H. apply in_app_or in H as [H | H].
  - rewrite <- (firstn_skipn i l). apply in_or_app. left. assumption.
  - simpl in H. rewrite <- (firstn_skipn (i + n) l). apply in_or_app. right. assumption.
Qed.

(** [s/^[[:space:]]*//] *)
Lemma substitute_leading_space (l : bytes) :
  exists u v,
    l = u ++ v /\ substitute leading_space [] l = v /\
    forallb is_space u = true /\
    (forall c rest, v = c :: rest -> is_space c = false).
Proof.
  destruct (longest_prefix (Star (Cls is_space)) l) as [n|] eqn:Hl.
  - assert (Hs : substitute leading_space [] l = skipn n l).
    { unfold substitute, search, leading_space, match_here. simpl.
      rewrite Hl. reflexivity. }
    rewrite Hs.
    apply longest_prefix_split in Hl as (u & v & -> & <- & Hm & Hmax).
    exists u, v. rewrite skipn_prefix. apply matches_Star_Cls in Hm.
    repeat split; [assumption |].
    intros c rest ->. destruct (is_space c) eqn:Hc; [| reflexivity].
    exfalso. apply (Hmax (u ++ [c]) rest).
    + rewrite <- app_assoc. reflexivity.
    + rewrite length_app. simpl. lia.
    + apply matches_Star_Cls. rewrite forallb_app, Hm. simpl. rewrite Hc. reflexivity.
  - exfalso. apply (longest_prefix_found l (Star (Cls is_space)) 0); [lia | | assumption].
    simpl. constructor.
Qed.

(** Stripping the leading blanks keeps every piece that starts with
    something else. *)
Lemma occurs_after_blanks (c : ascii) (s u v : bytes) :
  is_space c = false ->
  forallb is_space u = true ->
  occurs_in (c :: s) (u ++ v) ->
  occurs_in (c :: s) v.
Proof.
  intros Hc. revert v. induction u as [|x u IH]; intros v Hsp Ho; [assumption |].
  simpl in Hsp. apply andb_true_iff in Hsp as [Hx Hu].
  apply IH; [assumption |].
  destruct Ho as (a & b & E). destruct a as [|y a]; simpl in E.
  - injection E as -> _. congruence.
  - injection E as _ ->. exists a, b. reflexivity.
Qed.

Lemma accepts_Void (l : bytes) : accepts Void l = false.
Proof. induction l; simpl; auto. Qed.

(** [^$] selects the empty line only. *)
Lemma selects_empty_line (l : bytes) : selects empty_line l = true <-> l = [].
Proof.
  unfold selects, search, empty_line, match_here. simpl.
  destruct l as [|c l]; simpl.
  - split; reflexivity.
  - rewrite accepts_Void. split; discriminate.
Qed.

(** The lines [grep -E] keeps in [claude-usage.sh]. *)
Lemma selects_usage_line (l : bytes) :
  selects usage_line l = true <->
  occurs_in (lit "Current session") l \/ occurs_in (lit "Current week") l \/
  occurs_in (lit "% used") l \/ occurs_in (lit "Resets") l.
Proof.
  unfold usage_line. rewrite selects_unanchored. unfold has_match, occurs_in. split.
  - intros (a & u & b & -> & Hu).
    repeat (apply matches_Alt in Hu as [Hu | Hu]);
      apply matches_Lit in Hu; subst u; eauto 10.
  - intros [(a & b & ->) | [(a & b & ->) | [(a & b & ->) | (a & b & ->)]]];
      eexists a, _, b; (split; [reflexivity |]).
    + apply MAltL, matches_Lit. reflexivity.
    + apply MAltR, MAltL, matches_Lit. reflexivity.
    + apply MAltR, MAltR, MAltL, matches_Lit. reflexivity.
    + apply MAltR, MAltR, MAltR, matches_Lit. reflexivity.
Qed.

End Substitutions.

(* ================================================================= *)
(** * The pipelines *)

Section Pipelines.

Lemma lines_of_by_line (f : list bytes -> list bytes) (t : bytes) :
  Forall nl_free (f (lines_of t)) ->
  lines_of (by_line f t) = f (lines_of t).
Proof. apply lines_of_unlines. Qed.

Lemma separator_nl_free : nl_free group_separator.
Proof. intros [H | [H | []]]; discriminate. Qed.

Lemma grep_A_lines_nl_free (p : pattern) (num after : nat) (used adjacent : bool)
    (ls : list bytes) :
  Forall nl_free ls -> Forall nl_free (grep_A_lines p num after used adjacent ls).
Proof.
  rewrite !Forall_forall. intros H l Hin.
  apply grep_A_lines_In in Hin as [-> | Hin]; [apply separator_nl_free | auto].
Qed.

Lemma only_matching_nl_free (r : regex) (ls : list bytes) :
  Forall nl_free ls -> Forall nl_free (flat_map (only_matching r 0) ls).
Proof.
  rewrite !Forall_forall. intros H u Hin.
  apply in_flat_map in Hin as (l & Hl & Hu).
  apply only_matching_sound in Hu as [_ Ho].
  intro Hnl. exact (H l Hl (occurs_in_In u l nl Ho Hnl)).
Qed.

Lemma filter_nl_free (f : bytes -> bool) (ls : list bytes) :
  Forall nl_free ls -> Forall nl_free (filter f ls).
Proof.
  rewrite !Forall_forall. intros H l Hin. apply filter_In in Hin as [Hin _]. auto.
Qed.

Lemma substitute_nl_free (p : pattern) (ls : list bytes) :
  Forall nl_free ls -> Forall nl_free (map (substitute p []) ls).
Proof.
  rewrite !Forall_forall. intros H u Hin.
  apply in_map_iff in Hin as (l & <- & Hl).
  intro Hnl. exact (H l Hl (substitute_nil_incl p l nl Hnl)).
Qed.

(** The percentage pipeline, on lines. *)
Lemma percent_pipeline (heading : string) (OUTPUT : bytes) :
  echo OUTPUT |> grep_A 2 (fixed heading) |> grep_o percent_token |> head 1
  = unlines (firstn 1 (flat_map (only_matching percent_token 0)
                         (grep_A_lines (fixed heading) 2 0 false false
                            (screen_lines OUTPUT)))).
Proof.
  unfold pipe, grep_A, grep_o, head, screen_lines, by_line.
  set (L0 := grep_A_lines (fixed heading) 2 0 false false (lines_of (echo OUTPUT))).
  assert (H0 : Forall nl_free L0) by apply grep_A_lines_nl_free, lines_of_nl_free.
  rewrite (lines_of_unlines L0) by exact H0.
  rewrite (lines_of_unlines (flat_map (only_matching percent_token 0) L0))
    by (apply only_matching_nl_free; exact H0).
  reflexivity.
Qed.

(** The reset pipeline, on lines. *)
Lemma reset_pipeline (heading : string) (OUTPUT : bytes) :
  echo OUTPUT |> grep_A 3 (fixed heading) |> grep (fixed "Resets")
    |> sed_s upto_Resets [] |> head 1
  = unlines (firstn 1 (map (substitute upto_Resets [])
                         (filter (selects (fixed "Resets"))
                            (grep_A_lines (fixed heading) 3 0 false false
                               (screen_lines OUTPUT))))).
Proof.
  unfold pipe, grep_A, grep, sed_s, head, screen_lines, by_line.
  set (L0 := grep_A_lines (fixed heading) 3 0 false false (lines_of (echo OUTPUT))).
  assert (H0 : Forall nl_free L0) by apply grep_A_lines_nl_free, lines_of_nl_free.
  rewrite (lines_of_unlines L0) by exact H0.
  set (L1 := filter (selects (fixed "Resets")) L0).
  assert (H1 : Forall nl_free L1) by (apply filter_nl_free; exact H0).
  rewrite (lines_of_unlines L1) by exact H1.
  rewrite (lines_of_unlines (map (substitute upto_Resets []) L1))
    by (apply substitute_nl_free; exact H1).
  reflexivity.
Qed.

(** The listing of [claude-usage.sh], on lines. *)
Lemma listing_pipeline (OUTPUT : bytes) :
  lines_of (echo OUTPUT |> grep usage_line |> sed_s leading_space []
              |> grep_v empty_line)
  = filter (fun l => negb (selects empty_line l))
      (map (substitute leading_space [])
         (filter (selects usage_line) (screen_lines OUTPUT))).
Proof.
  unfold pipe, grep, sed_s, grep_v, screen_lines, by_line.
  set (L0 := filter (selects usage_line) (lines_of (echo OUTPUT))).
  assert (H0 : Forall nl_free L0) by apply filter_nl_free, lines_of_nl_free.
  rewrite (lines_of_unlines L0) by exact H0.
  set (L1 := map (substitute leading_space []) L0).
  assert (H1 : Forall nl_free L1) by (apply substitute_nl_free; exact H0).
  rewrite (lines_of_unlines L1) by exact H1.
  apply lines_of_unlines. apply filter_nl_free. exact H1.
Qed.

Lemma unlines_firstn_1 (x : bytes) (rest : list bytes) :
  unlines (firstn 1 (x :: rest)) = x ++ [nl].
Proof. unfold unlines. simpl. apply app_nil_r. Qed.

Lemma digits_nl_free (d : bytes) : forallb is_digit d = true -> nl_free d.
Proof.
  intros Hd Hin. rewrite forallb_forall in Hd. specialize (Hd _ Hin). discriminate.
Qed.

Lemma digits_nul_free (d : bytes) : forallb is_digit d = true -> nul_free d.
Proof.
  intros Hd Hin. rewrite forallb_forall in Hd. specialize (Hd _ Hin). discriminate.
Qed.

Lemma tr_d_token (d : bytes) :
  forallb is_digit d = true -> tr_d "%" ((d ++ lit "%") ++ [nl]) = d ++ [nl].
Proof.
  intro Hd. unfold tr_d. rewrite !filter_app. simpl. rewrite app_nil_r.
  f_equal. apply forallb_filter_id. apply forallb_forall. intros c Hc.
  rewrite forallb_forall in Hd. specialize (Hd c Hc).
  destruct (Ascii.eqb_spec c "%") as [-> | _]; [discriminate | reflexivity].
Qed.

(** The percentage of a window whose first token in reach is [d %]. *)
Lemma percent_of_first_token (heading : string) (OUTPUT d : bytes) :
  first_token (lit heading) 2 (screen_lines OUTPUT) d ->
  percent_of heading OUTPUT = d /\
  compact_percent_of heading OUTPUT = d ++ lit "%".
Proof.
  intros (j & a & b & Hw & Hj & Hd & Ha & Hend & Hfirst).
  destruct (only_matching_first a d b Hd Ha Hend) as (rest & Hrest).
  destruct (first_in_context (only_matching percent_token 0) eq_refl heading 2
              (screen_lines OUTPUT) 0 false false j (a ++ d ++ lit "%" ++ b))
    as (rest' & Hout).
  - lia.
  - assumption.
  - right. assumption.
  - intros j' l' Hlt [Hr | Hr] Hl'; [lia |].
    apply only_matching_none. eapply Hfirst; eassumption.
  - rewrite Hrest in Hout. destruct Hd as [Hne Hd].
    unfold percent_of, compact_percent_of.
    unfold pipe at 1. rewrite percent_pipeline, Hout.
    simpl app. rewrite unlines_firstn_1. split.
    + rewrite tr_d_token by assumption.
      apply cmd_subst_line; [apply digits_nl_free | apply digits_nul_free]; assumption.
    + apply cmd_subst_line.
      * intro Hin. apply in_app_or in Hin as [Hin | [Hin | []]]; [| discriminate].
        exact (digits_nl_free d Hd Hin).
      * intro Hin. apply in_app_or in Hin as [Hin | [Hin | []]]; [| discriminate].
        exact (digits_nul_free d Hd Hin).
Qed.

(** A window without a token in reach has no percentage. *)
Lemma percent_of_no_token (heading : string) (OUTPUT : bytes) :
  no_token (lit heading) 2 (screen_lines OUTPUT) ->
  percent_of heading OUTPUT = [] /\ compact_percent_of heading OUTPUT = [].
Proof.
  intro Hno.
  assert (Hout : flat_map (only_matching percent_token 0)
                   (grep_A_lines (fixed heading) 2 0 false false (screen_lines OUTPUT))
                 = []).
  { apply nothing_in_context; [reflexivity | lia |].
    intros j l [Hr | Hr] Hl; [lia |].
    apply only_matching_none. eapply Hno; eassumption. }
  unfold percent_of, compact_percent_of.
  unfold pipe at 1. rewrite percent_pipeline, Hout. split; reflexivity.
Qed.

End Pipelines.

(* ================================================================= *)
(** * Reset descriptions, and windows without a heading *)

Section Resets.

Lemma Resets_nonempty : lit "Resets " <> [].
Proof. discriminate. Qed.

Lemma screen_lines_clean (OUTPUT l : bytes) :
  nul_free OUTPUT -> In l (screen_lines OUTPUT) -> nl_free l /\ nul_free l.
Proof.
  intros Hnul Hin. split.
  - pose proof (screen_lines_nl_free OUTPUT) as H.
    rewrite Forall_forall in H. auto.
  - intro H. apply Hnul. apply screen_line_occurs in Hin.
    exact (occurs_in_In l OUTPUT nul Hin H).
Qed.

(** [grep "Resets" | sed 's/.*Resets //'] line by line. *)
Lemma map_filter_flat_map (ls : list bytes) :
  map (substitute upto_Resets []) (filter (selects (fixed "Resets")) ls)
  = flat_map (fun l => if selects (fixed "Resets") l
                       then [substitute upto_Resets [] l] else []) ls.
Proof.
  induction ls as [|l ls IH]; simpl; [reflexivity |].
  destruct (selects (fixed "Resets") l); simpl; rewrite IH; reflexivity.
Qed.

(** The reset description comes from the first line in reach where
    [Resets] occurs. *)
Lemma reset_of_first_line (heading : string) (OUTPUT l : bytes) :
  nul_free OUTPUT ->
  first_line_with (lit "Resets") (lit heading) 3 (screen_lines OUTPUT) l ->
  reset_of heading OUTPUT = substitute upto_Resets [] l.
Proof.
  intros Hnul (j & Hw & Hj & Hl & Hfirst).
  destruct (first_in_context
              (fun l => if selects (fixed "Resets") l
                        then [substitute upto_Resets [] l] else [])
              eq_refl heading 3 (screen_lines OUTPUT) 0 false false j l)
    as (rest & Hout).
  - lia.
  - assumption.
  - right. assumption.
  - intros j' l' Hlt [Hr | Hr] Hl'; [lia |].
    destruct (selects (fixed "Resets") l') eqn:E; [| reflexivity].
    exfalso. apply selects_fixed in E. eapply Hfirst; eassumption.
  - apply selects_fixed in Hl. rewrite Hl in Hout.
    unfold reset_of. rewrite reset_pipeline, map_filter_flat_map, Hout.
    simpl app. rewrite unlines_firstn_1.
    destruct (screen_lines_clean OUTPUT l Hnul (nth_error_In _ _ Hj)) as [Hnl Hn0].
    apply cmd_subst_line.
    + intro H. apply Hnl. eapply substitute_nil_incl. eassumption.
    + intro H. apply Hn0. eapply substitute_nil_incl. eassumption.
Qed.

(** Without such a line there is no description. *)
Lemma reset_of_none (heading : string) (OUTPUT : bytes) :
  (forall j l, within (lit heading) 3 (screen_lines OUTPUT) j ->
               nth_error (screen_lines OUTPUT) j = Some l ->
               ~ occurs_in (lit "Resets") l) ->
  reset_of heading OUTPUT = [].
Proof.
  intro Hno.
  unfold reset_of. rewrite reset_pipeline, map_filter_flat_map.
  rewrite nothing_in_context; [reflexivity | reflexivity | lia |].
  intros j l [Hr | Hr] Hl; [lia |].
  destruct (selects (fixed "Resets") l) eqn:E; [| reflexivity].
  exfalso. apply selects_fixed in E. eapply Hno; eassumption.
Qed.

(** The description never contains [Resets ] itself. *)
Lemma reset_of_clean (heading : string) (OUTPUT : bytes) :
  nul_free OUTPUT ->
  ~ occurs_in (lit "Resets ") (reset_of heading OUTPUT).
Proof.
  intro Hnul. unfold reset_of. rewrite reset_pipeline.
  destruct (map (substitute upto_Resets [])
              (filter (selects (fixed "Resets"))
                 (grep_A_lines (fixed heading) 3 0 false false (screen_lines OUTPUT))))
    as [|x rest] eqn:E.
  - simpl. intros (a & b & H). destruct a; discriminate.
  - rewrite unlines_firstn_1.
    assert (Hx : In x (map (substitute upto_Resets [])
              (filter (selects (fixed "Resets"))
                 (grep_A_lines (fixed heading) 3 0 false false (screen_lines OUTPUT)))))
      by (rewrite E; left; reflexivity).
    apply in_map_iff in Hx as (l & <- & Hl).
    apply filter_In in Hl as [Hl _].
    assert (Hc : nl_free l /\ nul_free l).
    { apply grep_A_lines_In in Hl as [-> | Hl].
      - split; intros [H | [H | []]]; discriminate.
      - apply (screen_lines_clean OUTPUT); assumption. }
    destruct Hc as [Hnl Hn0].
    rewrite cmd_subst_line.
    + apply (substitute_upto_clean (lit "Resets ") l Resets_nonempty).
    + intro H. apply Hnl. eapply substitute_nil_incl. eassumption.
    + intro H. apply Hn0. eapply substitute_nil_incl. eassumption.
Qed.



End Resets.

(* ================================================================= *)
(** * The shape of a compact percentage *)

Section Shape.

Lemma token_clean (d : bytes) :
  forallb is_digit d = true -> nl_free (d ++ lit "%") /\ nul_free (d ++ lit "%").
Proof.
  intro Hd. split; intro Hin; apply in_app_or in Hin as [Hin | [Hin | []]];
    try discriminate.
  - exact (digits_nl_free d Hd Hin).
  - exact (digits_nul_free d Hd Hin).
Qed.

(** It is empty, or the digits and the [%] of a token of the screen. *)
Lemma compact_percent_of_shape (heading : string) (OUTPUT : bytes) :
  compact_percent_of heading OUTPUT = [] \/
  exists d, digits d /\ compact_percent_of heading OUTPUT = d ++ lit "%" /\
            occurs_in (d ++ lit "%") OUTPUT.
Proof.
  unfold compact_percent_of. rewrite percent_pipeline.
  destruct (flat_map (only_matching percent_token 0)
              (grep_A_lines (fixed heading) 2 0 false false (screen_lines OUTPUT)))
    as [|x rest] eqn:E.
  - left. reflexivity.
  - right.
    assert (Hx : In x (flat_map (only_matching percent_token 0)
              (grep_A_lines (fixed heading) 2 0 false false (screen_lines OUTPUT))))
      by (rewrite E; left; reflexivity).
    apply in_flat_map in Hx as (l & Hl & Hx).
    apply only_matching_sound in Hx as [Hm Ho].
    apply matches_percent_token in Hm as (d & Hd & ->).
    exists d. split; [assumption |].
    rewrite unlines_firstn_1. destruct Hd as [Hne Hd].
    destruct (token_clean d Hd) as [Hnl Hnul].
    split; [apply cmd_subst_line; assumption |].
    apply grep_A_lines_In in Hl as [-> | Hl].
    + exfalso. destruct Ho as (a & b & Ho).
      assert (Hin : In "%"%char group_separator).
      { rewrite Ho. apply in_or_app. right. apply in_or_app. left.
        apply in_or_app. right. left. reflexivity. }
      destruct Hin as [H | [H | []]]; discriminate.
    + apply (occurs_in_trans (d ++ lit "%") l OUTPUT Ho).
      apply screen_line_occurs. assumption.
Qed.

Lemma digits_no_minus (d : bytes) : forallb is_digit d = true -> ~ In "-"%char d.
Proof.
  intros Hd Hin. rewrite forallb_forall in Hd. specialize (Hd _ Hin). discriminate.
Qed.

End Shape.

(* ================================================================= *)
(** * Lines beyond the lookahead do not matter *)

Section Replace.





End Replace.

(* ================================================================= *)
(** * What the scripts leave behind *)

Section Runs.

Variable w : world.
Variable pid : nat.

Lemma usage_captured : vars (exec (claude_usage pid) w) "OUTPUT" = captured w pid.
Proof. reflexivity. Qed.

Lemma compact_captured :
  vars (exec (claude_usage_compact pid) w) "OUTPUT" = captured w pid.
Proof. reflexivity. Qed.

Lemma json_captured :
  vars (exec (claude_usage_json pid) w) "OUTPUT" = captured w pid.
Proof. reflexivity. Qed.

Lemma captured_nul_free : nul_free (captured w pid).
Proof. apply cmd_subst_nul_free. Qed.

Lemma json_pct_var (win : window) :
  vars (exec (claude_usage_json pid) w) (pct_var win)
  = percent_of (heading_of win) (captured w pid).
Proof. destruct win; reflexivity. Qed.

Lemma json_reset_var (win : window) :
  vars (exec (claude_usage_json pid) w) (reset_var win)
  = reset_of (heading_of win) (captured w pid).
Proof. destruct win; reflexivity. Qed.

Lemma compact_pct_var (win : window) (v : string) :
  compact_var win = Some v ->
  vars (exec (claude_usage_compact pid) w) v
  = compact_percent_of (heading_of win) (captured w pid).
Proof. destruct win; intro E; inversion E; reflexivity. Qed.

Lemma usage_history :
  history (exec (claude_usage pid) w)
  = choreography pid ++ [tmux_capture_pane (session_name pid);
                         tmux_kill_session (session_name pid)].
Proof. reflexivity. Qed.

Lemma compact_history :
  history (exec (claude_usage_compact pid) w)
  = choreography pid ++ [tmux_capture_pane (session_name pid);
                         tmux_kill_session (session_name pid)].
Proof. reflexivity. Qed.

Lemma json_history :
  history (exec (claude_usage_json pid) w)
  = choreography pid ++ [tmux_capture_pane (session_name pid);
                         tmux_kill_session (session_name pid);
                         date_Iseconds].
Proof. reflexivity. Qed.

Lemma usage_stdout :
  stdout (exec (claude_usage pid) w)
  = (echo (captured w pid) |> grep usage_line |> sed_s leading_space []
       |> grep_v empty_line).
Proof. reflexivity. Qed.

Lemma compact_stdout :
  stdout (exec (claude_usage_compact pid) w)
  = lit "Claude: "
    ++ or_default (compact_percent_of "Current session" (captured w pid)) (lit "?")
    ++ lit " | Week: "
    ++ or_default (compact_percent_of "Current week (all models)" (captured w pid))
         (lit "?")
    ++ [nl].
Proof.
  change (stdout (exec (claude_usage_compact pid) w))
    with (echo (lit "Claude: "
                ++ or_default (compact_percent_of "Current session" (captured w pid))
                     (lit "?")
                ++ lit " | Week: "
                ++ or_default
                     (compact_percent_of "Current week (all models)" (captured w pid))
                     (lit "?"))).
  unfold echo. cbn [lit list_ascii_of_string app echo_options Ascii.eqb Bool.eqb andb].
  rewrite <- !app_assoc. reflexivity.
Qed.

Lemma json_stdout :
  stdout (exec (claude_usage_json pid) w)
  = here_document
      (cmd_subst (printed w (choreography pid
                             ++ [tmux_capture_pane (session_name pid);
                                 tmux_kill_session (session_name pid)])
                    date_Iseconds))
      (or_default (percent_of "Current session" (captured w pid)) (lit "0"))
      (or_default (reset_of "Current session" (captured w pid)) (lit "unknown"))
      (or_default (percent_of "Current week (all models)" (captured w pid)) (lit "0"))
      (or_default (reset_of "Current week (all models)" (captured w pid))
         (lit "unknown"))
      (or_default (percent_of "Current week (Sonnet only)" (captured w pid)) (lit "0"))
      (or_default (reset_of "Current week (Sonnet only)" (captured w pid))
         (lit "unknown")).
Proof. reflexivity. Qed.

Lemma compact_status : status (exec (claude_usage_compact pid) w) = 0.
Proof. reflexivity. Qed.

Lemma json_status : status (exec (claude_usage_json pid) w) = 0.
Proof. reflexivity. Qed.

End Runs.

(* ================================================================= *)
(** * The properties of the specification *)

(** Checks on given lines, by running the search. *)
Lemma no_match_by_search (r : regex) (l : bytes) :
  selects (unanchored r) l = false -> ~ has_match r l.
Proof. intros E H. apply selects_unanchored in H. congruence. Qed.

Lemma not_occurs_by_search (s : string) (l : bytes) :
  selects (fixed s) l = false -> ~ occurs_in (lit s) l.
Proof. intros E H. apply selects_fixed in H. congruence. Qed.

Lemma occurs_by_search (s : string) (l : bytes) :
  selects (fixed s) l = true -> occurs_in (lit s) l.
Proof. apply selects_fixed. Qed.

Lemma no_digit_at_end_by_last (a : bytes) :
  match rev a with
  | c :: _ => is_digit c
  | [] => false
  end = false ->
  no_digit_at_end a.
Proof.
  intros H x c ->. rewrite rev_app_distr in H. exact H.
Qed.

(** C1.  When the screen has a recognised heading and, on that line or
    one of the two lines after it, a token made of an integer and [%], the
    percentage of the window is that integer, taken from the first such
    token: the JSON script holds its digits, the compact script its digits
    and the [%]. *)
Theorem percent_is_first_token (w : world) (pid : nat) (win : window) (d : bytes) :
  first_token (lit (heading_of win)) 2 (screen_lines (captured w pid)) d ->
  vars (exec (claude_usage_json pid) w) (pct_var win) = d /\
  match compact_var win with
  | Some v => vars (exec (claude_usage_compact pid) w) v = d ++ lit "%"
  | None => True
  end.
Proof.
  intro H. apply percent_of_first_token in H as [Hj Hc]. split.
  - rewrite json_pct_var. assumption.
  - destruct (compact_var win) as [v|] eqn:E; [| exact I].
    rewrite (compact_pct_var w pid win v E). assumption.
Qed.

Lemma percent_is_first_token_witness :
  vars (exec (claude_usage_json 4242) (showing scenario noon)) "SESSION_PCT" = lit "45" /\
  vars (exec (claude_usage_compact 4242) (showing scenario noon)) "SESSION_PCT"
  = lit "45%".
Proof.
  apply (percent_is_first_token (showing scenario noon) 4242 session (lit "45")).
  exists 1, (lit "  "), (lit " used").
  split; [| split; [| split; [| split; [| split]]]].
  - exists 0, (lit "Current session").
    split; [lia | split; [reflexivity | exists [], []; reflexivity]].
  - reflexivity.
  - split; [discriminate | reflexivity].
  - apply no_match_by_search. reflexivity.
  - apply no_digit_at_end_by_last. reflexivity.
  - intros j' l' Hlt _ Hl'. destruct j' as [|j']; [| lia].
    injection Hl' as <-. apply no_match_by_search. reflexivity.
Defined.

(** C7.  The scenario: on the screen
    [Current session / 45% used / Resets 2h 30m] the session window has
    percentage 45 and reset description [2h 30m]. *)
Theorem scenario_session (pid : nat) (now : bytes) :
  vars (exec (claude_usage_json pid) (showing scenario now)) "SESSION_PCT" = lit "45" /\
  decimal_value (vars (exec (claude_usage_json pid) (showing scenario now)) "SESSION_PCT")
  = 45%N /\
  vars (exec (claude_usage_json pid) (showing scenario now)) "SESSION_RESET"
  = lit "2h 30m".
Proof.
  pose proof (json_pct_var (showing scenario now) pid session) as Hp.
  pose proof (json_reset_var (showing scenario now) pid session) as Hr.
  cbn [pct_var reset_var heading_of] in Hp, Hr. rewrite Hp, Hr. clear Hp Hr.
  change (captured (showing scenario now) pid) with (cmd_subst scenario).
  repeat split; vm_compute; reflexivity.
Qed.

(** C6.  In every invocation of each of the three scripts, on every
    machine (whatever the commands answer, and whether they fail or not),
    the session is torn down exactly once: the history has one
    [kill-session], for the session of the invocation, after its creation
    and the capture, and no tmux command follows. *)
Theorem teardown_exactly_once (w : world) (pid : nat) :
  torn_down_once (session_name pid) (history (exec (claude_usage pid) w)) /\
  torn_down_once (session_name pid) (history (exec (claude_usage_compact pid) w)) /\
  torn_down_once (session_name pid) (history (exec (claude_usage_json pid) w)).
Proof.
  rewrite usage_history, compact_history, json_history.
  assert (K : forall after,
             Forall (fun c => c = date_Iseconds) after ->
             length (filter is_kill after) = 0 ->
             torn_down_once (session_name pid)
               (choreography pid
                ++ tmux_capture_pane (session_name pid)
                   :: tmux_kill_session (session_name pid) :: after)).
  { intros after Hafter Hcount. split.
    - rewrite filter_app. simpl. rewrite Hcount. reflexivity.
    - exists (choreography pid ++ [tmux_capture_pane (session_name pid)]), after.
      split; [| split; [| split]].
      + rewrite <- app_assoc. reflexivity.
      + left. reflexivity.
      + apply in_or_app. right. left. reflexivity.
      + assumption. }
  split; [| split].
  - apply K; [constructor | reflexivity].
  - apply K; [constructor | reflexivity].
  - apply K; [constructor; [reflexivity | constructor] | reflexivity].
Qed.

(** C9.  Every line that [claude-usage.sh] prints is non-empty, does not
    begin with a blank, and contains one of [Current session],
    [Current week], [% used] and [Resets]. *)
Theorem listing_lines (w : world) (pid : nat) (l : bytes) :
  In l (lines_of (stdout (exec (claude_usage pid) w))) ->
  l <> [] /\
  (forall c rest, l = c :: rest -> is_space c = false) /\
  (occurs_in (lit "Current session") l \/ occurs_in (lit "Current week") l \/
   occurs_in (lit "% used") l \/ occurs_in (lit "Resets") l).
Proof.
  rewrite usage_stdout, listing_pipeline. intro H.
  apply filter_In in H as [Hin Hne].
  apply in_map_iff in Hin as (l0 & <- & Hl0).
  apply filter_In in Hl0 as [_ Hsel].
  destruct (substitute_leading_space l0) as (u & v & -> & Hs & Hu & Hv).
  rewrite Hs in *. split; [| split].
  - intros ->. discriminate.
  - assumption.
  - apply selects_usage_line in Hsel.
    destruct Hsel as [H | [H | [H | H]]];
      [left | right; left | right; right; left | right; right; right];
      revert H; apply occurs_after_blanks; auto.
Qed.

Lemma listing_lines_witness :
  lit "45% used" <> [] /\
  (forall c rest, lit "45% used" = c :: rest -> is_space c = false) /\
  (occurs_in (lit "Current session") (lit "45% used") \/
   occurs_in (lit "Current week") (lit "45% used") \/
   occurs_in (lit "% used") (lit "45% used") \/
   occurs_in (lit "Resets") (lit "45% used")).
Proof.
  apply (listing_lines (showing scenario noon) 4242 (lit "45% used")).
  vm_compute. right. left. reflexivity.
Defined.




(** C8, as stated, fails: on a screen whose reset line ends right after
    [Resets], the description is that whole line, which is the text after
    [Resets ] on no line of the screen. *)
Lemma reset_of_bare_Resets :
  vars (exec (claude_usage_json 4242) (showing bare_Resets noon)) "SESSION_RESET"
  = lit "  Resets" /\
  ~ (exists l a,
        In l (screen_lines (captured (showing bare_Resets noon) 4242)) /\
        l = a ++ lit "Resets "
              ++ vars (exec (claude_usage_json 4242) (showing bare_Resets noon))
                   "SESSION_RESET").
Proof.
  assert (E : vars (exec (claude_usage_json 4242) (showing bare_Resets noon))
                "SESSION_RESET" = lit "  Resets") by (vm_compute; reflexivity).
  split; [assumption |]. rewrite E. clear E.
  intros (l & a & Hin & El).
  change (In l [lit "Current session"; lit "  Resets"]) in Hin.
  pose proof (f_equal (@length ascii) El) as Hlen. rewrite !length_app in Hlen.
  destruct Hin as [<- | [<- | []]]; simpl in Hlen; try lia.
  destruct a; [discriminate | simpl in Hlen; lia].
Qed.

(** C8, amended.  The reset description of a window comes from the first
    line, among the heading line and the three lines after it, where
    [Resets] occurs (with or without a space after it): when [Resets ]
    occurs on that line the description is what follows its last
    occurrence, otherwise it is the whole line; without such a line there
    is none.  In every case the string printed for it does not contain
    [Resets ]. *)
Theorem reset_is_text_after_last_Resets (w : world) (pid : nat) (win : window) :
  ~ occurs_in (lit "Resets ")
      (or_default (vars (exec (claude_usage_json pid) w) (reset_var win))
         (lit "unknown")) /\
  (forall l,
     first_line_with (lit "Resets") (lit (heading_of win)) 3
       (screen_lines (captured w pid)) l ->
     (occurs_in (lit "Resets ") l ->
      exists a,
        l = a ++ lit "Resets " ++ vars (exec (claude_usage_json pid) w) (reset_var win) /\
        ~ occurs_in (lit "Resets ")
            (vars (exec (claude_usage_json pid) w) (reset_var win))) /\
     (~ occurs_in (lit "Resets ") l ->
      vars (exec (claude_usage_json pid) w) (reset_var win) = l)) /\
  ((forall j l, within (lit (heading_of win)) 3 (screen_lines (captured w pid)) j ->
                nth_error (screen_lines (captured w pid)) j = Some l ->
                ~ occurs_in (lit "Resets") l) ->
   vars (exec (claude_usage_json pid) w) (reset_var win) = []).
Proof.
  rewrite json_reset_var. split; [| split].
  - destruct (reset_of (heading_of win) (captured w pid)) as [|c v] eqn:E.
    + apply (not_occurs_by_search "Resets "). reflexivity.
    + simpl. rewrite <- E. apply reset_of_clean, captured_nul_free.
  - intros l Hl.
    rewrite (reset_of_first_line (heading_of win) (captured w pid) l
               (captured_nul_free w pid) Hl).
    split.
    + intro Ho. apply (substitute_upto_last (lit "Resets ") l Resets_nonempty Ho).
    + intro Hno. apply (substitute_upto_absent (lit "Resets ") l Hno).
  - apply reset_of_none.
Qed.

Lemma reset_is_text_after_last_Resets_witness :
  exists a,
    lit "  Resets 2h 30m"
    = a ++ lit "Resets "
        ++ vars (exec (claude_usage_json 4242) (showing scenario noon)) "SESSION_RESET" /\
    ~ occurs_in (lit "Resets ")
        (vars (exec (claude_usage_json 4242) (showing scenario noon)) "SESSION_RESET").
Proof.
  apply (proj1 (proj2 (reset_is_text_after_last_Resets (showing scenario noon) 4242
                         session))
           (lit "  Resets 2h 30m")).
  - exists 2. split; [| split; [| split]].
    + exists 0, (lit "Current session").
      split; [lia | split; [reflexivity | exists [], []; reflexivity]].
    + reflexivity.
    + apply (occurs_by_search "Resets"). reflexivity.
    + intros j' l' Hlt _ Hl'.
      destruct j' as [|[|j']]; [| | lia]; injection Hl' as <-;
        apply (not_occurs_by_search "Resets"); reflexivity.
  - apply (occurs_by_search "Resets "). reflexivity.
Defined.

(** C2, as stated, fails: a screen that shows 150% makes the compact
    script print 150%, a percentage above 100. *)
Lemma compact_prints_150 :
  stdout (exec (claude_usage_compact 4242) (showing over_the_limit noon))
  = lit "Claude: 150% | Week: ?" ++ [nl] /\
  ~ (forall d,
       digits d ->
       occurs_in (d ++ lit "%")
         (stdout (exec (claude_usage_compact 4242) (showing over_the_limit noon))) ->
       (decimal_value d <= 100)%N).
Proof.
  assert (E : stdout (exec (claude_usage_compact 4242) (showing over_the_limit noon))
              = lit "Claude: 150% | Week: ?" ++ [nl]) by (vm_compute; reflexivity).
  split; [assumption |]. rewrite E. intro H.
  specialize (H (lit "150")).
  assert (Hd : digits (lit "150")) by (split; [discriminate | reflexivity]).
  assert (Ho : occurs_in (lit "150" ++ lit "%") (lit "Claude: 150% | Week: ?" ++ [nl])).
  { exists (lit "Claude: "), (lit " | Week: ?" ++ [nl]). reflexivity. }
  specialize (H Hd Ho). vm_compute in H. apply H. reflexivity.
Qed.

(** C2, amended.  The line of the compact script never contains a minus
    sign, so no negative percentage; the first percent token in reach of a
    heading is printed with the digits it has on the screen, whatever
    their value: a percentage above 100 is printed as it is, neither
    replaced by the placeholder nor clamped. *)
Theorem compact_prints_tokens_unchanged (w : world) (pid : nat) :
  ~ In "-"%char (stdout (exec (claude_usage_compact pid) w)) /\
  (forall d,
     first_token (lit "Current session") 2 (screen_lines (captured w pid)) d ->
     occurs_in (lit "Claude: " ++ d ++ lit "% | Week: ")
       (stdout (exec (claude_usage_compact pid) w))) /\
  (forall d,
     first_token (lit "Current week (all models)") 2 (screen_lines (captured w pid)) d ->
     occurs_in (lit " | Week: " ++ d ++ lit "%" ++ [nl])
       (stdout (exec (claude_usage_compact pid) w))).
Proof.
  rewrite compact_stdout. split; [| split].
  - assert (F : forall h, ~ In "-"%char
                  (or_default (compact_percent_of h (captured w pid)) (lit "?"))).
    { intros h Hin.
      destruct (compact_percent_of_shape h (captured w pid))
        as [E | (d & [_ Hd] & E & _)]; rewrite E in Hin.
      - destruct Hin as [H | []]; discriminate.
      - assert (Hin' : In "-"%char (d ++ lit "%")).
        { destruct d; [destruct Hin as [H | []]; discriminate | exact Hin]. }
        apply in_app_or in Hin' as [Hin' | [H | []]]; [| discriminate].
        exact (digits_no_minus d Hd Hin'). }
    intro Hin.
    apply in_app_or in Hin as [Hin | Hin];
      [repeat (destruct Hin as [Hin | Hin]; [discriminate |]); destruct Hin |].
    apply in_app_or in Hin as [Hin | Hin]; [exact (F _ Hin) |].
    apply in_app_or in Hin as [Hin | Hin];
      [repeat (destruct Hin as [Hin | Hin]; [discriminate |]); destruct Hin |].
    apply in_app_or in Hin as [Hin | Hin]; [exact (F _ Hin) |].
    destruct Hin as [Hin | []]; discriminate.
  - intros d Hd.
    destruct (percent_of_first_token "Current session" (captured w pid) d Hd) as [_ E].
    rewrite E. assert (Hne : d ++ lit "%" <> []) by (destruct d; discriminate).
    replace (or_default (d ++ lit "%") (lit "?")) with (d ++ lit "%")
      by (destruct (d ++ lit "%"); [congruence | reflexivity]).
    generalize (or_default
                  (compact_percent_of "Current week (all models)" (captured w pid))
                  (lit "?")).
    intro p2. exists [], (p2 ++ [nl]).
    rewrite app_nil_l, <- !app_assoc. reflexivity.
  - intros d Hd.
    destruct (percent_of_first_token "Current week (all models)" (captured w pid) d Hd)
      as [_ E].
    rewrite E. assert (Hne : d ++ lit "%" <> []) by (destruct d; discriminate).
    replace (or_default (d ++ lit "%") (lit "?")) with (d ++ lit "%")
      by (destruct (d ++ lit "%"); [congruence | reflexivity]).
    generalize (or_default (compact_percent_of "Current session" (captured w pid))
                  (lit "?")).
    intro p1. exists (lit "Claude: " ++ p1), [].
    rewrite app_nil_r, <- !app_assoc. reflexivity.
Qed.

Lemma compact_prints_tokens_unchanged_witness :
  occurs_in (lit "Claude: " ++ lit "150" ++ lit "% | Week: ")
    (stdout (exec (claude_usage_compact 4242) (showing over_the_limit noon))).
Proof.
  apply (proj1 (proj2 (compact_prints_tokens_unchanged (showing over_the_limit noon) 4242))
           (lit "150")).
  exists 1, (lit "  "), (lit " used").
  split; [| split; [| split; [| split; [| split]]]].
  - exists 0, (lit "Current session").
    split; [lia | split; [reflexivity | exists [], []; reflexivity]].
  - reflexivity.
  - split; [discriminate | reflexivity].
  - apply no_match_by_search. reflexivity.
  - apply no_digit_at_end_by_last. reflexivity.
  - intros j' l' Hlt _ Hl'. destruct j' as [|j']; [| lia].
    injection Hl' as <-. apply no_match_by_search. reflexivity.
Defined.

(** C4, as stated, fails: on an empty screen the compact script prints
    [Claude: ? | Week: ?], where no [%] follows the placeholders; the line
    is not of the form [Claude: P1% | Week: P2%]. *)
Lemma compact_placeholders_without_percent :
  stdout (exec (claude_usage_compact 4242) (showing [] noon))
  = lit "Claude: ? | Week: ?" ++ [nl] /\
  ~ (exists p1 p2,
        stdout (exec (claude_usage_compact 4242) (showing [] noon))
        = lit "Claude: " ++ p1 ++ lit "% | Week: " ++ p2 ++ lit "%" ++ [nl]).
Proof.
  assert (E : stdout (exec (claude_usage_compact 4242) (showing [] noon))
              = lit "Claude: ? | Week: ?" ++ [nl]) by (vm_compute; reflexivity).
  split; [assumption |]. rewrite E. intros (p1 & p2 & H).
  apply (f_equal (@rev ascii)) in H.
  rewrite !rev_app_distr in H. simpl in H. discriminate.
Qed.

(** C4, amended.  The compact script prints exactly one line,
    [Claude: P1 | Week: P2], and exits with 0; each of P1 and P2 is the
    placeholder [?] alone when the value is missing, and otherwise digits
    followed by [%], as they occur on the captured screen: never a number
    that the screen does not show. *)
Theorem compact_line (w : world) (pid : nat) :
  exists p1 p2,
    stdout (exec (claude_usage_compact pid) w)
    = lit "Claude: " ++ p1 ++ lit " | Week: " ++ p2 ++ [nl] /\
    compact_field p1 (vars (exec (claude_usage_compact pid) w) "SESSION_PCT")
      (captured w pid) /\
    compact_field p2 (vars (exec (claude_usage_compact pid) w) "WEEK_PCT")
      (captured w pid) /\
    lines_of (stdout (exec (claude_usage_compact pid) w))
    = [lit "Claude: " ++ p1 ++ lit " | Week: " ++ p2] /\
    status (exec (claude_usage_compact pid) w) = 0.
Proof.
  assert (F : forall h,
             compact_field (or_default (compact_percent_of h (captured w pid)) (lit "?"))
               (compact_percent_of h (captured w pid)) (captured w pid) /\
             nl_free (or_default (compact_percent_of h (captured w pid)) (lit "?"))).
  { intro h.
    destruct (compact_percent_of_shape h (captured w pid))
      as [E | (d & Hd & E & Ho)]; rewrite E.
    - split; [left; split; reflexivity |].
      intros [H | []]; discriminate.
    - assert (Hd' := Hd). destruct Hd' as [Hne Hdig].
      replace (or_default (d ++ lit "%") (lit "?")) with (d ++ lit "%")
        by (destruct d; [congruence | reflexivity]).
      split; [| apply token_clean; assumption].
      right. exists d. repeat split; assumption. }
  destruct (F "Current session"%string) as [F1 N1].
  destruct (F "Current week (all models)"%string) as [F2 N2].
  exists (or_default (compact_percent_of "Current session" (captured w pid)) (lit "?")),
         (or_default (compact_percent_of "Current week (all models)" (captured w pid))
            (lit "?")).
  rewrite compact_stdout.
  rewrite (compact_pct_var w pid session "SESSION_PCT" eq_refl).
  rewrite (compact_pct_var w pid week_all_models "WEEK_PCT" eq_refl).
  split; [reflexivity | split; [exact F1 | split; [exact F2 | split; [| reflexivity]]]].
  set (p1 := or_default (compact_percent_of "Current session" (captured w pid)) (lit "?")) in *.
  set (p2 := or_default (compact_percent_of "Current week (all models)" (captured w pid))
               (lit "?")) in *.
  replace (lit "Claude: " ++ p1 ++ lit " | Week: " ++ p2 ++ [nl])
    with ((lit "Claude: " ++ p1 ++ lit " | Week: " ++ p2) ++ [nl])
    by (rewrite <- !app_assoc; reflexivity).
  rewrite lines_of_line; [reflexivity |].
  intro Hin.
  apply in_app_or in Hin as [Hin | Hin];
    [repeat (destruct Hin as [Hin | Hin]; [discriminate |]); destruct Hin |].
  apply in_app_or in Hin as [Hin | Hin]; [exact (N1 Hin) |].
  apply in_app_or in Hin as [Hin | Hin];
    [repeat (destruct Hin as [Hin | Hin]; [discriminate |]); destruct Hin |].
  exact (N2 Hin).
Qed.

(** C3: the JSON script does not always print well-formed JSON.  The
    expansions go into the here-document as they are: a reset description
    with a double quote ends the string early, and a percentage with
    leading zeros is not a JSON number.  On these two screens no reader of
    JSON accepts the output, however much fuel it has; on the screen of
    the scenario the output is one well-formed object, and the script
    exits with 0 in all three cases. *)
Theorem json_output_not_always_well_formed :
  (stdout (exec (claude_usage_json 4242) (showing quoted_reset noon))
   = here_document noon (lit "45") ([dq] ++ lit "soon" ++ [dq])
       (lit "0") (lit "unknown") (lit "0") (lit "unknown") /\
   forall fuel,
     Json.well_formed_with fuel
       (stdout (exec (claude_usage_json 4242) (showing quoted_reset noon))) = false) /\
  (stdout (exec (claude_usage_json 4242) (showing leading_zeros noon))
   = here_document noon (lit "007") (lit "unknown")
       (lit "0") (lit "unknown") (lit "0") (lit "unknown") /\
   forall fuel,
     Json.well_formed_with fuel
       (stdout (exec (claude_usage_json 4242) (showing leading_zeros noon))) = false) /\
  Json.is_object (stdout (exec (claude_usage_json 4242) (showing scenario noon))) = true /\
  status (exec (claude_usage_json 4242) (showing quoted_reset noon)) = 0 /\
  status (exec (claude_usage_json 4242) (showing leading_zeros noon)) = 0 /\
  status (exec (claude_usage_json 4242) (showing scenario noon)) = 0.
Proof.
  assert (Q : stdout (exec (claude_usage_json 4242) (showing quoted_reset noon))
              = here_document noon (lit "45") ([dq] ++ lit "soon" ++ [dq])
                  (lit "0") (lit "unknown") (lit "0") (lit "unknown"))
    by (vm_compute; reflexivity).
  assert (Z : stdout (exec (claude_usage_json 4242) (showing leading_zeros noon))
              = here_document noon (lit "007") (lit "unknown")
                  (lit "0") (lit "unknown") (lit "0") (lit "unknown"))
    by (vm_compute; reflexivity).
  split; [| split; [| split; [| repeat split]]].
  - split; [exact Q |]. rewrite Q. intro fuel.
    do 8 (destruct fuel as [|fuel]; [reflexivity |]).
    vm_compute. reflexivity.
  - split; [exact Z |]. rewrite Z. intro fuel.
    do 8 (destruct fuel as [|fuel]; [reflexivity |]).
    vm_compute. reflexivity.
  - vm_compute. reflexivity.
Qed.

(* ================================================================= *)
(** * The usage bar *)

Import UsageBar.

(** The clamp of a finite number: a number between 0 and 100, the number
    itself when it is in that range, the nearer bound when it is not. *)
Lemma clamp_Finite (q : Q) :
  exists c,
    Math_min (of_Z 100) (Math_max (of_Z 0) (Finite q)) = Finite c /\
    (0 <= c /\ c <= 100)%Q /\
    ((0 <= q /\ q <= 100)%Q -> (c == q)%Q) /\
    ((q < 0)%Q -> (c == 0)%Q) /\
    ((100 < q)%Q -> (c == 100)%Q).
Proof.
  unfold Math_min, Math_max, of_Z, ge.
  destruct (Qle_bool q (inject_Z 0)) eqn:E0.
  - apply Qle_bool_iff in E0. unfold inject_Z in E0.
    assert (E : Qle_bool (inject_Z 0) (inject_Z 100) = true) by reflexivity.
    rewrite E. exists (inject_Z 0). unfold inject_Z.
    split; [reflexivity |]. repeat split; intros; lra.
  - assert (H0 : (0 < q)%Q).
    { apply Qnot_le_lt. intro H. apply Qle_bool_iff in H.
      unfold inject_Z in E0. congruence. }
    destruct (Qle_bool q (inject_Z 100)) eqn:E1.
    + apply Qle_bool_iff in E1. unfold inject_Z in E1.
      exists q. split; [reflexivity |]. repeat split; intros; lra.
    + assert (H1 : (100 < q)%Q).
      { apply Qnot_le_lt. intro H. apply Qle_bool_iff in H.
        unfold inject_Z in E1. congruence. }
      exists (inject_Z 100). unfold inject_Z.
      split; [reflexivity |]. repeat split; intros; lra.
Qed.

(** C10.  For every number, negative or above 100 or infinite, the fill
    element is as wide as [min(100, max(0, percent))], which is between 0
    and 100, and the label shows [Math.round(percent)], not clamped.  The
    one value of the type that is no number, NaN, which a JSON result does
    not hold, goes through both formulas as NaN. *)
Theorem usage_bar_clamps_all_but_NaN (v : variant) :
  (forall q,
     exists c,
       fill_width (UsageBar (Finite q) v) = Finite c /\
       in_bounds (fill_width (UsageBar (Finite q) v)) /\
       ((0 <= q /\ q <= 100)%Q -> (c == q)%Q) /\
       ((q < 0)%Q -> (c == 0)%Q) /\
       ((100 < q)%Q -> (c == 100)%Q) /\
       label (UsageBar (Finite q) v) = of_Z (Qfloor (q + (1 # 2)))) /\
  (fill_width (UsageBar PosInfinity v) = of_Z 100 /\
   label (UsageBar PosInfinity v) = PosInfinity) /\
  (fill_width (UsageBar NegInfinity v) = of_Z 0 /\
   label (UsageBar NegInfinity v) = NegInfinity) /\
  (label (UsageBar (of_Z 150) v) = of_Z 150 /\
   label (UsageBar (of_Z (-5)) v) = of_Z (-5)) /\
  (fill_width (UsageBar NaN v) = NaN /\
   ~ in_bounds (fill_width (UsageBar NaN v)) /\
   label (UsageBar NaN v) = NaN).
Proof.
  split; [| repeat split; auto].
  intro q. destruct (clamp_Finite q) as (c & E & Hb & Hin & Hneg & Hbig).
  exists c. unfold UsageBar. cbn [fill_width label].
  split; [exact E |]. split; [rewrite E; exact Hb |].
  repeat split; assumption.
Qed.

(* ================================================================= *)
(** * More about [claude-usage.sh] *)

Section Listing.

Lemma stripped_substitute (l : bytes) : stripped l (substitute leading_space [] l).
Proof.
  destruct (substitute_leading_space l) as (u & v & E & Hs & Hu & Hv).
  rewrite Hs. exists u. auto.
Qed.

Lemma stripped_keeps_word (l v : bytes) :
  stripped l v -> has_usage_word l -> has_usage_word v.
Proof.
  intros (u & -> & Hu & _) H. unfold has_usage_word in *.
  destruct H as [H | [H | [H | H]]];
    [left | right; left | right; right; left | right; right; right];
    revert H; apply occurs_after_blanks; auto.
Qed.

Lemma has_usage_word_nonempty (v : bytes) : has_usage_word v -> v <> [].
Proof.
  intros H ->.
  destruct H as [H | [H | [H | H]]]; destruct H as (a & b & E);
    destruct a; discriminate.
Qed.

(** Once the leading blanks are gone no selected line is empty:
    [grep -v "^$"] has nothing to drop. *)
Lemma nothing_dropped (ls : list bytes) :
  Forall (fun l => selects usage_line l = true) ls ->
  filter (fun l => negb (selects empty_line l)) (map (substitute leading_space []) ls)
  = map (substitute leading_space []) ls.
Proof.
  induction 1 as [|l ls Hl _ IH]; simpl; [reflexivity |].
  rewrite IH.
  destruct (selects empty_line (substitute leading_space [] l)) eqn:E; [| reflexivity].
  exfalso. apply selects_empty_line in E.
  apply selects_usage_line in Hl.
  exact (has_usage_word_nonempty _
           (stripped_keeps_word l _ (stripped_substitute l) Hl) E).
Qed.

Lemma listing_lines_of (OUTPUT : bytes) :
  lines_of (echo OUTPUT |> grep usage_line |> sed_s leading_space []
              |> grep_v empty_line)
  = map (substitute leading_space [])
      (filter (selects usage_line) (screen_lines OUTPUT)).
Proof.
  rewrite listing_pipeline. apply nothing_dropped.
  apply Forall_forall. intros l Hl. apply filter_In in Hl. apply Hl.
Qed.

Lemma usage_status (w : world) (pid : nat) :
  status (exec (claude_usage pid) w) = grep_status (stdout (exec (claude_usage pid) w)).
Proof. reflexivity. Qed.

Lemma lines_of_nil_inv (t : bytes) : lines_of t = [] -> t = [].
Proof.
  destruct t as [|c t]; [reflexivity |]. simpl.
  destruct (Ascii.eqb c nl); [discriminate |].
  destruct (lines_of t); discriminate.
Qed.

Lemma listing_status (OUTPUT : bytes) :
  ((exists l, In l (screen_lines OUTPUT) /\ has_usage_word l) ->
   grep_status (echo OUTPUT |> grep usage_line |> sed_s leading_space []
                  |> grep_v empty_line) = 0 /\
   (echo OUTPUT |> grep usage_line |> sed_s leading_space [] |> grep_v empty_line)
   <> []) /\
  ((forall l, In l (screen_lines OUTPUT) -> ~ has_usage_word l) ->
   grep_status (echo OUTPUT |> grep usage_line |> sed_s leading_space []
                  |> grep_v empty_line) = 1 /\
   (echo OUTPUT |> grep usage_line |> sed_s leading_space [] |> grep_v empty_line)
   = []).
Proof.
  pose proof (listing_lines_of OUTPUT) as L.
  remember (echo OUTPUT |> grep usage_line |> sed_s leading_space []
              |> grep_v empty_line) as out eqn:Eout.
  remember (filter (selects usage_line) (screen_lines OUTPUT)) as kept eqn:Ekept.
  clear Eout. split.
  - intros (l & Hl & Hw).
    assert (Hin : In l kept).
    { rewrite Ekept. apply filter_In.
      split; [assumption | apply selects_usage_line; assumption]. }
    destruct out as [|c out].
    + exfalso. destruct kept as [|x kept]; [destruct Hin | discriminate L].
    + split; [reflexivity | discriminate].
  - intro Hno.
    assert (E : kept = []).
    { destruct kept as [|l ls]; [reflexivity |].
      exfalso. assert (Hin : In l (l :: ls)) by (left; reflexivity).
      rewrite Ekept in Hin. apply filter_In in Hin as [Hin Hsel].
      apply selects_usage_line in Hsel. exact (Hno l Hin Hsel). }
    rewrite E in L. apply lines_of_nil_inv in L.
    rewrite L. split; reflexivity.
Qed.

End Listing.

(** X1.  [claude-usage.sh] prints one line for every line of the screen
    that has one of the four words, in the order of the screen and with
    none left out: that line without its leading blanks. *)
Theorem listing_is_every_usage_line (w : world) (pid : nat) :
  exists keep : bytes -> bool,
    (forall l, keep l = true <-> has_usage_word l) /\
    Forall2 stripped
      (filter keep (screen_lines (captured w pid)))
      (lines_of (stdout (exec (claude_usage pid) w))).
Proof.
  exists (selects usage_line). split; [apply selects_usage_line |].
  rewrite usage_stdout, listing_lines_of.
  induction (filter (selects usage_line) (screen_lines (captured w pid)))
    as [|l ls IH]; simpl; constructor; [apply stripped_substitute | exact IH].
Qed.

(** X2.  [claude-usage.sh] exits with 0 when some line of the screen has
    one of the four words, and with 1, having printed nothing, when none
    has. *)
Theorem listing_exit_status (w : world) (pid : nat) :
  ((exists l, In l (screen_lines (captured w pid)) /\ has_usage_word l) ->
   status (exec (claude_usage pid) w) = 0 /\
   stdout (exec (claude_usage pid) w) <> []) /\
  ((forall l, In l (screen_lines (captured w pid)) -> ~ has_usage_word l) ->
   status (exec (claude_usage pid) w) = 1 /\
   stdout (exec (claude_usage pid) w) = []).
Proof.
  rewrite usage_status, usage_stdout.
  apply listing_status.
Qed.

Lemma listing_exit_status_witness :
  status (exec (claude_usage 4242) (showing scenario noon)) = 0 /\
  stdout (exec (claude_usage 4242) (showing scenario noon)) <> [].
Proof.
  refine (proj1 (listing_exit_status (showing scenario noon) 4242) _).
  exists (lit "  45% used"). split.
  - vm_compute. right. left. reflexivity.
  - right. right. left. exists (lit "  45"), []. reflexivity.
Defined.

(* ================================================================= *)
(** * Session names *)

Section Names.

Lemma decimal_inj (p q : nat) : decimal p = decimal q -> p = q.
Proof.
  unfold decimal, lit. intro E.
  apply (f_equal string_of_list_ascii) in E.
  rewrite !string_of_list_ascii_of_string in E.
  apply (f_equal NilZero.uint_of_string) in E.
  assert (N : forall n, Nat.to_uint n <> Decimal.Nil).
  { intro n. rewrite <- (DecimalNat.Unsigned.of_to n) at 1.
    rewrite DecimalNat.Unsigned.to_of. apply DecimalFacts.unorm_nonnil. }
  rewrite !NilZero.usu in E by apply N.
  injection E as E. apply DecimalNat.Unsigned.to_uint_inj. assumption.
Qed.

Lemma session_name_inj (p q : nat) : session_name p = session_name q -> p = q.
Proof.
  unfold session_name. intro E. apply app_inv_head in E. apply decimal_inj. assumption.
Qed.

Lemma history_arguments (pid : nat) (c : command) :
  In c (choreography pid
        ++ [tmux_capture_pane (session_name pid);
            tmux_kill_session (session_name pid); date_Iseconds]) ->
  session_argument c = None \/ session_argument c = Some (session_name pid).
Proof.
  intro H. simpl in H.
  repeat (destruct H as [<- | H]; [simpl; auto |]). destruct H.
Qed.

End Names.

(** X3.  Every tmux command of an invocation is given the name of the
    invocation's own session, [claude-usage-<pid>], as its [-s] or [-t]
    argument, and different process ids give different names.  The names
    are not prefix-free: [claude-usage-42] is a proper prefix of
    [claude-usage-4242]. *)
Theorem own_session_name_passed (w : world) (pid other : nat) (c : command) :
  other <> pid ->
  In c (history (exec (claude_usage pid) w))
  \/ In c (history (exec (claude_usage_compact pid) w))
  \/ In c (history (exec (claude_usage_json pid) w)) ->
  (session_argument c = None \/ session_argument c = Some (session_name pid)) /\
  session_name pid <> session_name other /\
  session_name 4242 = session_name 42 ++ lit "42".
Proof.
  intros Hne Hin.
  split; [| split; [| reflexivity]].
  - apply (history_arguments pid).
    rewrite usage_history, compact_history, json_history in Hin.
    destruct Hin as [Hin | [Hin | Hin]]; [| | assumption];
      apply in_app_or in Hin as [Hin | Hin]; apply in_or_app;
      [left; assumption | right | left; assumption | right];
      destruct Hin as [<- | [<- | []]];
      [left; reflexivity | right; left; reflexivity
       | left; reflexivity | right; left; reflexivity].
  - intro E. apply session_name_inj in E. congruence.
Qed.

Lemma own_session_name_passed_witness :
  (session_argument (tmux_kill_session (session_name 4242)) = None \/
   session_argument (tmux_kill_session (session_name 4242)) = Some (session_name 4242)) /\
  session_name 4242 <> session_name 4243.
Proof.
  refine (let H := own_session_name_passed (showing scenario noon) 4242 4243
                     (tmux_kill_session (session_name 4242)) _ _ in
          conj (proj1 H) (proj1 (proj2 H))).
  - discriminate.
  - left. rewrite usage_history. apply in_or_app. right. right. left. reflexivity.
Defined.

(* ================================================================= *)
(** * More about the percentages and the reset descriptions *)

Section Values.

(** The percentage of JSON mode and that of compact mode come from the
    same token. *)
Lemma percent_pair (heading : string) (OUTPUT : bytes) :
  (percent_of heading OUTPUT = [] /\ compact_percent_of heading OUTPUT = []) \/
  (exists d, digits d /\ percent_of heading OUTPUT = d /\
             compact_percent_of heading OUTPUT = d ++ lit "%" /\
             occurs_in (d ++ lit "%") OUTPUT).
Proof.
  pose proof (compact_percent_of_shape heading OUTPUT) as Shape.
  revert Shape. unfold percent_of, compact_percent_of.
  change (echo OUTPUT |> grep_A 2 (fixed heading) |> grep_o percent_token |> head 1
            |> tr_d "%")
    with (tr_d "%" (echo OUTPUT |> grep_A 2 (fixed heading) |> grep_o percent_token
                      |> head 1)).
  rewrite percent_pipeline.
  destruct (flat_map (only_matching percent_token 0)
              (grep_A_lines (fixed heading) 2 0 false false (screen_lines OUTPUT)))
    as [|x rest] eqn:Ex.
  - intros _. left. split; reflexivity.
  - rewrite unlines_firstn_1.
    assert (Hx : In x (flat_map (only_matching percent_token 0)
                (grep_A_lines (fixed heading) 2 0 false false (screen_lines OUTPUT))))
      by (rewrite Ex; left; reflexivity).
    apply in_flat_map in Hx as (l & _ & Hx).
    apply only_matching_sound in Hx as [Hm _].
    apply matches_percent_token in Hm as (d & [Hne Hd] & ->).
    destruct (token_clean d Hd) as [Hnl Hnul].
    rewrite tr_d_token by assumption.
    rewrite (cmd_subst_line (d ++ lit "%")) by assumption.
    rewrite (cmd_subst_line d)
      by (try apply digits_nl_free; try apply digits_nul_free; assumption).
    intros [E | (d' & _ & E & Ho)].
    + destruct d; discriminate.
    + right. exists d. repeat split; try assumption.
      rewrite E. assumption.
Qed.

(** What [s/.*Resets //] leaves is the end of the line. *)
Lemma substitute_upto_suffix (l : bytes) :
  exists a, l = a ++ substitute upto_Resets [] l.
Proof.
  destruct (selects (fixed "Resets ") l) eqn:E.
  - apply selects_fixed in E.
    destruct (substitute_upto_last (lit "Resets ") l Resets_nonempty E) as (a & Ha & _).
    exists (a ++ lit "Resets "). rewrite <- app_assoc. exact Ha.
  - exists []. symmetry. apply (substitute_upto_absent (lit "Resets ")).
    apply not_occurs_by_search. assumption.
Qed.

(** The reset description is the end of a line of the screen where
    [Resets] occurs. *)
Lemma reset_of_from_screen (heading : string) (OUTPUT : bytes) :
  nul_free OUTPUT ->
  reset_of heading OUTPUT = [] \/
  exists l a, In l (screen_lines OUTPUT) /\ occurs_in (lit "Resets") l /\
              l = a ++ reset_of heading OUTPUT.
Proof.
  intro Hnul. unfold reset_of. rewrite reset_pipeline.
  destruct (map (substitute upto_Resets [])
              (filter (selects (fixed "Resets"))
                 (grep_A_lines (fixed heading) 3 0 false false (screen_lines OUTPUT))))
    as [|x rest] eqn:E.
  - left. reflexivity.
  - right. rewrite unlines_firstn_1.
    assert (Hx : In x (map (substitute upto_Resets [])
              (filter (selects (fixed "Resets"))
                 (grep_A_lines (fixed heading) 3 0 false false (screen_lines OUTPUT)))))
      by (rewrite E; left; reflexivity).
    apply in_map_iff in Hx as (l & <- & Hl).
    apply filter_In in Hl as [Hl Hsel].
    assert (Hin : In l (screen_lines OUTPUT)).
    { apply grep_A_lines_In in Hl as [-> | Hl]; [discriminate Hsel | assumption]. }
    destruct (screen_lines_clean OUTPUT l Hnul Hin) as [Hnl Hn0].
    rewrite cmd_subst_line.
    + destruct (substitute_upto_suffix l) as (a & Ha).
      exists l, a. split; [assumption | split; [apply selects_fixed; assumption | exact Ha]].
    + intro H. apply Hnl. eapply substitute_nil_incl. eassumption.
    + intro H. apply Hn0. eapply substitute_nil_incl. eassumption.
Qed.

End Values.

(** X4.  JSON mode reports only what the screen shows: the percentage of a
    window is missing or a run of digits that stands on the captured
    screen right before a [%]; its reset description is missing or the end
    of a line of the screen where [Resets] occurs. *)
Theorem json_values_from_screen (w : world) (pid : nat) (win : window) :
  (vars (exec (claude_usage_json pid) w) (pct_var win) = [] \/
   (digits (vars (exec (claude_usage_json pid) w) (pct_var win)) /\
    occurs_in (vars (exec (claude_usage_json pid) w) (pct_var win) ++ lit "%")
      (captured w pid))) /\
  (vars (exec (claude_usage_json pid) w) (reset_var win) = [] \/
   exists l a,
     In l (screen_lines (captured w pid)) /\ occurs_in (lit "Resets") l /\
     l = a ++ vars (exec (claude_usage_json pid) w) (reset_var win)).
Proof.
  rewrite json_pct_var, json_reset_var. split.
  - destruct (percent_pair (heading_of win) (captured w pid))
      as [[E _] | (d & Hd & E & _ & Ho)]; rewrite E; [left; reflexivity | right].
    split; assumption.
  - apply reset_of_from_screen, captured_nul_free.
Qed.

(** X5.  The two modes agree on the percentages: for the session and the
    weekly window, either both scripts find none, or the compact script
    holds the digits that the JSON script holds, followed by [%]. *)
Theorem modes_agree (w : world) (pid : nat) (win : window) (v : string) :
  compact_var win = Some v ->
  (vars (exec (claude_usage_json pid) w) (pct_var win) = [] /\
   vars (exec (claude_usage_compact pid) w) v = []) \/
  (digits (vars (exec (claude_usage_json pid) w) (pct_var win)) /\
   vars (exec (claude_usage_compact pid) w) v
   = vars (exec (claude_usage_json pid) w) (pct_var win) ++ lit "%").
Proof.
  intro Hv. rewrite json_pct_var, (compact_pct_var w pid win v Hv).
  destruct (percent_pair (heading_of win) (captured w pid))
    as [[E1 E2] | (d & Hd & E1 & E2 & _)]; rewrite E1, E2; [left | right]; auto.
Qed.

Lemma modes_agree_witness :
  (vars (exec (claude_usage_json 4242) (showing scenario noon)) "SESSION_PCT" = [] /\
   vars (exec (claude_usage_compact 4242) (showing scenario noon)) "SESSION_PCT" = []) \/
  (digits (vars (exec (claude_usage_json 4242) (showing scenario noon)) "SESSION_PCT") /\
   vars (exec (claude_usage_compact 4242) (showing scenario noon)) "SESSION_PCT"
   = vars (exec (claude_usage_json 4242) (showing scenario noon)) "SESSION_PCT"
     ++ lit "%").
Proof.
  exact (modes_agree (showing scenario noon) 4242 session "SESSION_PCT" eq_refl).
Defined.

(** X6.  The lookahead is a hard bound: when no line among the heading
    lines of a window and the two lines after each has a percent token,
    the window has no percentage in either mode, whatever tokens stand
    elsewhere on the screen. *)
Theorem no_percentage_beyond_lookahead (w : world) (pid : nat) (win : window) :
  no_token (lit (heading_of win)) 2 (screen_lines (captured w pid)) ->
  vars (exec (claude_usage_json pid) w) (pct_var win) = [] /\
  match compact_var win with
  | Some v => vars (exec (claude_usage_compact pid) w) v = []
  | None => True
  end.
Proof.
  intro H. apply percent_of_no_token in H as [Hj Hc]. split.
  - rewrite json_pct_var. assumption.
  - destruct (compact_var win) as [v|] eqn:E; [| exact I].
    rewrite (compact_pct_var w pid win v E). assumption.
Qed.

Lemma no_percentage_beyond_lookahead_witness :
  vars (exec (claude_usage_json 4242) (showing too_far noon)) "SESSION_PCT" = [] /\
  vars (exec (claude_usage_compact 4242) (showing too_far noon)) "SESSION_PCT" = [].
Proof.
  refine (no_percentage_beyond_lookahead (showing too_far noon) 4242 session _).
  assert (E : screen_lines (captured (showing too_far noon) 4242)
              = [lit "Current session"; []; []; lit "  45% used"])
    by (vm_compute; reflexivity).
  rewrite E. intros j l (i & h & Hij & Hi & Ho) Hl.
  destruct j as [|[|[|[|j]]]]; simpl in Hl;
    [| | | | destruct j; discriminate]; injection Hl as <-;
    try (apply no_match_by_search; vm_compute; reflexivity).
  destruct i as [|[|[|[|i]]]]; try lia; simpl in Hi; injection Hi as <-;
    exfalso; revert Ho;
    apply (not_occurs_by_search "Current session"); vm_compute; reflexivity.
Defined.

(** X7.  When nothing is captured (tmux is missing, the session could not
    be created, the pane is empty), the scripts still end normally:
    compact mode prints [Claude: ? | Week: ?], JSON mode prints its object
    with every percentage 0 and every reset [unknown], both with exit
    status 0, and [claude-usage.sh] prints nothing and exits with 1. *)
Theorem nothing_captured (w : world) (pid : nat) :
  captured w pid = [] ->
  stdout (exec (claude_usage_compact pid) w) = lit "Claude: ? | Week: ?" ++ [nl] /\
  status (exec (claude_usage_compact pid) w) = 0 /\
  (exists timestamp,
     stdout (exec (claude_usage_json pid) w)
     = here_document timestamp (lit "0") (lit "unknown") (lit "0") (lit "unknown")
         (lit "0") (lit "unknown")) /\
  status (exec (claude_usage_json pid) w) = 0 /\
  stdout (exec (claude_usage pid) w) = [] /\
  status (exec (claude_usage pid) w) = 1.
Proof.
  intro E.
  rewrite usage_status, compact_stdout, json_stdout, usage_stdout, E.
  repeat split. eexists. reflexivity.
Qed.

Lemma nothing_captured_witness :
  stdout (exec (claude_usage_compact 4242) broken) = lit "Claude: ? | Week: ?" ++ [nl] /\
  status (exec (claude_usage_compact 4242) broken) = 0.
Proof.
  refine (let H := nothing_captured broken 4242 eq_refl in
          conj (proj1 H) (proj1 (proj2 H))).
Defined.

(* ================================================================= *)
(** * When the output of the JSON script is JSON *)

Section JsonOutput.

Lemma string_body_plain (s rest : bytes) :
  plain s -> Json.string_body (s ++ dq :: rest) = Some rest.
Proof.
  unfold plain. induction s as [|c s IH]; intro H.
  - reflexivity.
  - simpl in H. apply andb_true_iff in H as [Hc Hs].
    unfold plain_char in Hc.
    apply andb_true_iff in Hc as [Hc H32]. apply andb_true_iff in Hc as [Hq Hb].
    apply negb_true_iff in Hq, Hb, H32.
    change ((c :: s) ++ dq :: rest) with (c :: (s ++ dq :: rest)).
    cbn [Json.string_body]. rewrite Hq, Hb, H32. apply IH. assumption.
Qed.

Lemma skip_digits_app (d rest : bytes) :
  forallb is_digit d = true ->
  Json.skip_digits (d ++ lit "," ++ rest) = lit "," ++ rest.
Proof.
  induction d as [|c d IH]; intro H.
  - reflexivity.
  - simpl in H. apply andb_true_iff in H as [Hc Hd].
    change ((c :: d) ++ lit "," ++ rest) with (c :: (d ++ lit "," ++ rest)).
    cbn [Json.skip_digits]. rewrite Hc. apply IH. assumption.
Qed.

(** What a digit is not. *)
Lemma digit_is_no_punctuation (c : ascii) :
  is_digit c = true ->
  Json.is_ws c = false /\ Ascii.eqb c dq = false /\ Ascii.eqb c "{" = false /\
  Ascii.eqb c "[" = false /\ Ascii.eqb c "t" = false /\ Ascii.eqb c "f" = false /\
  Ascii.eqb c "n" = false /\ Ascii.eqb c "-" = false.
Proof.
  destruct c as [[] [] [] [] [] [] [] []]; intro H; try discriminate H;
    repeat split; reflexivity.
Qed.

Lemma json_int_head (p : bytes) :
  json_int p -> exists c d, p = c :: d /\ is_digit c = true.
Proof.
  intros [-> | (c & d & -> & Hc & _ & _)].
  - exists "0"%char, []. split; reflexivity.
  - exists c, d. split; [reflexivity | assumption].
Qed.

Lemma number_json_int (p rest : bytes) :
  json_int p -> Json.number (p ++ lit "," ++ rest) = Some (lit "," ++ rest).
Proof.
  intros [-> | (c & d & -> & Hc & H0 & Hd)].
  - reflexivity.
  - destruct (digit_is_no_punctuation c Hc) as (_ & _ & _ & _ & _ & _ & _ & Hm).
    assert (Hz : Ascii.eqb c "0" = false) by (apply Ascii.eqb_neq; assumption).
    change ((c :: d) ++ lit "," ++ rest) with (c :: (d ++ lit "," ++ rest)).
    unfold Json.number. rewrite Hm, Hz, Hc, skip_digits_app by assumption.
    reflexivity.
Qed.

Lemma value_number (f : nat) (p rest : bytes) :
  json_int p ->
  Json.parse (S f) Json.Value (p ++ lit "," ++ rest) = Some (lit "," ++ rest).
Proof.
  intro Hp. rewrite <- (number_json_int p rest Hp).
  destruct (json_int_head p Hp) as (c & d & -> & Hc).
  destruct (digit_is_no_punctuation c Hc) as (_ & Hq & Hb & Hk & Ht & Hf & Hn & _).
  change ((c :: d) ++ lit "," ++ rest) with (c :: (d ++ lit "," ++ rest)).
  cbn [Json.parse]. rewrite Hq, Hb, Hk, Ht, Hf, Hn. reflexivity.
Qed.

Lemma skip_ws_json_int (p rest : bytes) :
  json_int p -> Json.skip_ws (p ++ rest) = p ++ rest.
Proof.
  intro Hp. destruct (json_int_head p Hp) as (c & d & -> & Hc).
  destruct (digit_is_no_punctuation c Hc) as (Hw & _).
  change ((c :: d) ++ rest) with (c :: (d ++ rest)).
  cbn [Json.skip_ws]. rewrite Hw. reflexivity.
Qed.

Lemma value_string (f : nat) (v rest : bytes) :
  plain v -> Json.parse (S f) Json.Value ([dq] ++ v ++ [dq] ++ rest) = Some rest.
Proof.
  intro Hv. change ([dq] ++ v ++ [dq] ++ rest) with (dq :: (v ++ dq :: rest)).
  cbn [Json.parse]. rewrite Ascii.eqb_refl. apply string_body_plain. assumption.
Qed.

(** One member: a key, a colon, a value, and what follows the value. *)
Lemma member_step (f : nat) (key s s3 s4 : bytes) (d : ascii) :
  plain key ->
  Json.skip_ws s = s ->
  Json.parse f Json.Value s = Some s3 ->
  Json.skip_ws s3 = d :: s4 ->
  Json.parse (S f) Json.Members ([dq] ++ key ++ [dq] ++ lit ": " ++ s)
  = if Ascii.eqb d "," then Json.parse f Json.Members (Json.skip_ws s4)
    else if Ascii.eqb d "}" then Some s4 else None.
Proof.
  intros Hk Hs Hv H3.
  change ([dq] ++ key ++ [dq] ++ lit ": " ++ s)
    with (dq :: (key ++ dq :: (lit ": " ++ s))).
  cbn [Json.parse]. rewrite Ascii.eqb_refl, (string_body_plain key _ Hk).
  change (Json.skip_ws (lit ": " ++ s)) with (":"%char :: " "%char :: s).
  change (Ascii.eqb ":" ":") with true. cbn iota.
  change (Json.skip_ws (" "%char :: s)) with (Json.skip_ws s).
  rewrite Hs, Hv, H3. reflexivity.
Qed.

(** The object of a window. *)
Lemma value_window (f : nat) (p r rest : bytes) :
  json_int p -> plain r ->
  Json.parse (S (S (S (S f)))) Json.Value
    (lit "{" ++ [nl]
     ++ lit "    " ++ [dq] ++ lit "percent_used" ++ [dq] ++ lit ": " ++ p ++ lit ","
     ++ [nl]
     ++ lit "    " ++ [dq] ++ lit "resets" ++ [dq] ++ lit ": " ++ [dq] ++ r ++ [dq]
     ++ [nl]
     ++ lit "  }" ++ rest)
  = Some rest.
Proof.
  intros Hp Hr.
  change (Json.parse (S (S (S (S f)))) Json.Value
            (lit "{" ++ [nl]
             ++ lit "    " ++ [dq] ++ lit "percent_used" ++ [dq] ++ lit ": " ++ p
             ++ lit "," ++ [nl]
             ++ lit "    " ++ [dq] ++ lit "resets" ++ [dq] ++ lit ": " ++ [dq] ++ r
             ++ [dq] ++ [nl] ++ lit "  }" ++ rest))
    with (Json.parse (S (S (S f))) Json.Members
            ([dq] ++ lit "percent_used" ++ [dq] ++ lit ": " ++ p
             ++ lit "," ++ [nl]
             ++ lit "    " ++ [dq] ++ lit "resets" ++ [dq] ++ lit ": " ++ [dq] ++ r
             ++ [dq] ++ [nl] ++ lit "  }" ++ rest)).
  rewrite (member_step (S (S f)) (lit "percent_used") _
             (lit "," ++ [nl] ++ lit "    " ++ [dq] ++ lit "resets" ++ [dq]
              ++ lit ": " ++ [dq] ++ r ++ [dq] ++ [nl] ++ lit "  }" ++ rest)
             ([nl] ++ lit "    " ++ [dq] ++ lit "resets" ++ [dq]
              ++ lit ": " ++ [dq] ++ r ++ [dq] ++ [nl] ++ lit "  }" ++ rest)
             ","%char).
  - change (Ascii.eqb "," ",") with true. cbn iota.
    change (Json.skip_ws ([nl] ++ lit "    " ++ [dq] ++ lit "resets" ++ [dq]
                          ++ lit ": " ++ [dq] ++ r ++ [dq] ++ [nl] ++ lit "  }" ++ rest))
      with ([dq] ++ lit "resets" ++ [dq]
            ++ lit ": " ++ [dq] ++ r ++ [dq] ++ [nl] ++ lit "  }" ++ rest).
    rewrite (member_step (S f) (lit "resets") _ ([nl] ++ lit "  }" ++ rest) rest "}"%char).
    + reflexivity.
    + reflexivity.
    + reflexivity.
    + apply value_string. assumption.
    + reflexivity.
  - reflexivity.
  - apply skip_ws_json_int. assumption.
  - apply value_number. assumption.
  - reflexivity.
Qed.

(** The here-document is one JSON object when the texts between its
    quotes are plain and its numbers are JSON numbers. *)
Lemma here_document_well_formed (ts p1 r1 p2 r2 p3 r3 : bytes) :
  plain ts ->
  json_int p1 -> plain r1 -> json_int p2 -> plain r2 -> json_int p3 -> plain r3 ->
  Json.is_object (here_document ts p1 r1 p2 r2 p3 r3) = true.
Proof.
  intros Hts Hp1 Hr1 Hp2 Hr2 Hp3 Hr3.
  assert (P : forall f,
             Json.parse (S (S (S (S (S (S (S (S (S f))))))))) Json.Value
               (here_document ts p1 r1 p2 r2 p3 r3) = Some [nl]).
  { intro f. unfold here_document.
    set (W3 := lit "{" ++ [nl]
               ++ lit "    " ++ [dq] ++ lit "percent_used" ++ [dq] ++ lit ": " ++ p3
               ++ lit "," ++ [nl]
               ++ lit "    " ++ [dq] ++ lit "resets" ++ [dq] ++ lit ": " ++ [dq] ++ r3
               ++ [dq] ++ [nl] ++ lit "  }" ++ [nl] ++ lit "}" ++ [nl]).
    set (M3 := [dq] ++ lit "week_sonnet" ++ [dq] ++ lit ": " ++ W3).
    set (W2 := lit "{" ++ [nl]
               ++ lit "    " ++ [dq] ++ lit "percent_used" ++ [dq] ++ lit ": " ++ p2
               ++ lit "," ++ [nl]
               ++ lit "    " ++ [dq] ++ lit "resets" ++ [dq] ++ lit ": " ++ [dq] ++ r2
               ++ [dq] ++ [nl] ++ lit "  }" ++ lit "," ++ [nl] ++ lit "  " ++ M3).
    set (M2 := [dq] ++ lit "week_all_models" ++ [dq] ++ lit ": " ++ W2).
    set (W1 := lit "{" ++ [nl]
               ++ lit "    " ++ [dq] ++ lit "percent_used" ++ [dq] ++ lit ": " ++ p1
               ++ lit "," ++ [nl]
               ++ lit "    " ++ [dq] ++ lit "resets" ++ [dq] ++ lit ": " ++ [dq] ++ r1
               ++ [dq] ++ [nl] ++ lit "  }" ++ lit "," ++ [nl] ++ lit "  " ++ M2).
    set (M1 := [dq] ++ lit "session" ++ [dq] ++ lit ": " ++ W1).
    set (V0 := [dq] ++ ts ++ [dq] ++ lit "," ++ [nl] ++ lit "  " ++ M1).
    set (M0 := [dq] ++ lit "timestamp" ++ [dq] ++ lit ": " ++ V0).
    change (Json.parse (S (S (S (S (S (S (S (S f)))))))) Json.Members M0 = Some [nl]).
    assert (E3 : Json.parse (S (S (S (S (S f))))) Json.Members M3 = Some [nl]).
    { unfold M3.
      rewrite (member_step (S (S (S (S f)))) (lit "week_sonnet") W3
                 ([nl] ++ lit "}" ++ [nl]) [nl] "}"%char);
        try reflexivity.
      unfold W3. apply value_window; assumption. }
    assert (E2 : Json.parse (S (S (S (S (S (S f)))))) Json.Members M2 = Some [nl]).
    { unfold M2.
      rewrite (member_step (S (S (S (S (S f))))) (lit "week_all_models") W2
                 (lit "," ++ [nl] ++ lit "  " ++ M3) ([nl] ++ lit "  " ++ M3) ","%char);
        try reflexivity.
      - exact E3.
      - unfold W2. apply value_window; assumption. }
    assert (E1 : Json.parse (S (S (S (S (S (S (S f))))))) Json.Members M1 = Some [nl]).
    { unfold M1.
      rewrite (member_step (S (S (S (S (S (S f)))))) (lit "session") W1
                 (lit "," ++ [nl] ++ lit "  " ++ M2) ([nl] ++ lit "  " ++ M2) ","%char);
        try reflexivity.
      - exact E2.
      - unfold W1. apply value_window; assumption. }
    unfold M0.
    rewrite (member_step (S (S (S (S (S (S (S f))))))) (lit "timestamp") V0
               (lit "," ++ [nl] ++ lit "  " ++ M1) ([nl] ++ lit "  " ++ M1) ","%char);
      try reflexivity.
    - exact E1.
    - unfold V0. apply value_string. assumption. }
  unfold Json.is_object, Json.well_formed, Json.well_formed_with.
  assert (L : exists f, 2 * length (here_document ts p1 r1 p2 r2 p3 r3) + 2
                        = S (S (S (S (S (S (S (S (S f))))))))).
  { assert (G : 4 <= length (here_document ts p1 r1 p2 r2 p3 r3)).
    { unfold here_document. rewrite 3 length_app.
      change (length (lit "{")) with 1. change (length [nl]) with 1.
      change (length (lit "  ")) with 2. lia. }
    exists (2 * length (here_document ts p1 r1 p2 r2 p3 r3) + 2 - 9). lia. }
  destruct L as (f & ->).
  change (Json.skip_ws (here_document ts p1 r1 p2 r2 p3 r3))
    with (here_document ts p1 r1 p2 r2 p3 r3).
  rewrite P. reflexivity.
Qed.

Lemma plain_unknown : plain (lit "unknown").
Proof. reflexivity. Qed.

Lemma digits_json_int (d : bytes) : digits d -> no_leading_zero d -> json_int d.
Proof.
  intros [Hne Hd] Hz. destruct d as [|c d]; [congruence |].
  simpl in Hd. apply andb_true_iff in Hd as [Hc Hd].
  destruct (Ascii.eqb_spec c "0") as [-> | Hc0].
  - left. rewrite (Hz d eq_refl). reflexivity.
  - right. exists c, d. auto.
Qed.

End JsonOutput.

(** X8.  The output of the JSON script is one well-formed JSON object
    whenever the timestamp and the three reset descriptions contain no
    double quote, no backslash and no control character, and no percentage
    has a superfluous leading zero. *)
Theorem json_output_well_formed (w : world) (pid : nat) :
  plain (timestamp_of w pid) ->
  (forall win,
     plain (vars (exec (claude_usage_json pid) w) (reset_var win)) /\
     no_leading_zero (vars (exec (claude_usage_json pid) w) (pct_var win))) ->
  Json.is_object (stdout (exec (claude_usage_json pid) w)) = true /\
  status (exec (claude_usage_json pid) w) = 0.
Proof.
  intros Hts H. split; [| reflexivity].
  assert (F : forall win,
             json_int (or_default (percent_of (heading_of win) (captured w pid)) (lit "0"))
             /\ plain (or_default (reset_of (heading_of win) (captured w pid))
                         (lit "unknown"))).
  { intro win. destruct (H win) as [Hr Hp].
    rewrite json_reset_var in Hr. rewrite json_pct_var in Hp. split.
    - destruct (percent_pair (heading_of win) (captured w pid))
        as [[E _] | (d & Hd & E & _)]; rewrite E in *.
      + left. reflexivity.
      + replace (or_default d (lit "0")) with d
          by (destruct Hd as [Hne _]; destruct d; [congruence | reflexivity]).
        apply digits_json_int; assumption.
    - destruct (reset_of (heading_of win) (captured w pid)) as [|c r];
        [apply plain_unknown | exact Hr]. }
  rewrite json_stdout.
  destruct (F session) as [P1 R1]. destruct (F week_all_models) as [P2 R2].
  destruct (F week_sonnet) as [P3 R3].
  apply here_document_well_formed; assumption.
Qed.

Lemma json_output_well_formed_witness :
  Json.is_object (stdout (exec (claude_usage_json 4242) (showing scenario noon))) = true /\
  status (exec (claude_usage_json 4242) (showing scenario noon)) = 0.
Proof.
  apply (json_output_well_formed (showing scenario noon) 4242).
  - vm_compute. reflexivity.
  - intro win. split.
    + destruct win; vm_compute; reflexivity.
    + intros rest E. destruct win; vm_compute in E; try discriminate E.
Defined.

(* ================================================================= *)
(** * More about the usage bar *)

Section Bar.

Lemma Qle_bool_lt (x y : Q) : (y < x)%Q -> Qle_bool x y = false.
Proof.
  intro H. destruct (Qle_bool x y) eqn:E; [| reflexivity].
  apply Qle_bool_iff in E. lra.
Qed.

Lemma Qle_bool_eq (x y x' y' : Q) :
  ((x <= y)%Q <-> (x' <= y')%Q) -> Qle_bool x y = Qle_bool x' y'.
Proof.
  intro H. destruct (Qle_bool x y) eqn:E, (Qle_bool x' y') eqn:E'; try reflexivity.
  - apply Qle_bool_iff, H, Qle_bool_iff in E. congruence.
  - apply Qle_bool_iff, H, Qle_bool_iff in E'. congruence.
Qed.

(** The thresholds lie between the bounds of the clamp. *)
Lemma ge_clamped (p : number) (k : Z) :
  (0 < k <= 100)%Z ->
  ge (Math_min (of_Z 100) (Math_max (of_Z 0) p)) (of_Z k) = ge p (of_Z k).
Proof.
  intro Hk.
  assert (K0 : (0 < inject_Z k)%Q).
  { change 0%Q with (inject_Z 0). rewrite <- Zlt_Qlt. lia. }
  assert (K100 : (inject_Z k <= 100)%Q).
  { change 100%Q with (inject_Z 100). rewrite <- Zle_Qle. lia. }
  destruct p as [| | q |].
  - reflexivity.
  - simpl. apply Qle_bool_lt. exact K0.
  - destruct (clamp_Finite q) as (c & E & [Hc0 Hc100] & Hin & Hneg & Hbig).
    rewrite E. unfold ge, of_Z. apply Qle_bool_eq.
    destruct (Qlt_le_dec q 0) as [Hq | Hq].
    + specialize (Hneg Hq). split; intro; lra.
    + destruct (Qlt_le_dec 100 q) as [Hq' | Hq'].
      * specialize (Hbig Hq'). split; intro; lra.
      * specialize (Hin (conj Hq Hq')). split; intro; lra.
  - simpl. apply Qle_bool_iff. exact K100.
Qed.

End Bar.

(** X9.  The colour of the bar, chosen from the percentage as it comes,
    is the colour that the width drawn would give: since the thresholds 70
    and 90 lie within the bounds of the clamp, clamping never changes the
    colour class, for any number. *)
Theorem colour_agrees_with_width (percent : number) (v : variant) :
  fill_class (UsageBar percent v)
  = getColorClass (fill_width (UsageBar percent v)) v.
Proof.
  unfold UsageBar. cbn [fill_class fill_width]. unfold getColorClass.
  rewrite !ge_clamped by lia. reflexivity.
Qed.

(** X10.  For a percentage between 0 and 100 the label is an integer
    between 0 and 100 that differs from the width of the bar by a half at
    most. *)
Theorem label_close_to_width (q : Q) (v : variant) :
  (0 <= q /\ q <= 100)%Q ->
  exists (z : Z) (c : Q),
    label (UsageBar (Finite q) v) = of_Z z /\
    fill_width (UsageBar (Finite q) v) = Finite c /\
    (0 <= z <= 100)%Z /\
    (c - (1 # 2) < inject_Z z /\ inject_Z z <= c + (1 # 2))%Q.
Proof.
  intros [H0 H100].
  destruct (clamp_Finite q) as (c & E & _ & Hin & _ & _).
  specialize (Hin (conj H0 H100)).
  exists (Qfloor (q + (1 # 2))), c.
  unfold UsageBar. cbn [label fill_width].
  split; [reflexivity | split; [exact E |]].
  pose proof (Qfloor_le (q + (1 # 2))) as Hle.
  pose proof (Qlt_floor (q + (1 # 2))) as Hlt.
  rewrite inject_Z_plus in Hlt. change (inject_Z 1) with 1%Q in Hlt.
  split; [| split; lra].
  split.
  - change 0%Z with (Qfloor (inject_Z 0)). apply Qfloor_resp_le.
    change (inject_Z 0) with 0%Q. lra.
  - assert (G : (Qfloor (q + (1 # 2)) <= Qfloor (201 # 2))%Z).
    { apply Qfloor_resp_le. lra. }
    exact G.
Qed.

Lemma label_close_to_width_witness :
  exists (z : Z) (c : Q),
    label (UsageBar (Finite (91 # 2)) default) = of_Z z /\
    fill_width (UsageBar (Finite (91 # 2)) default) = Finite c /\
    (0 <= z <= 100)%Z /\
    (c - (1 # 2) < inject_Z z /\ inject_Z z <= c + (1 # 2))%Q.
Proof.
  apply (label_close_to_width (91 # 2) default).
  split; discriminate.
Defined.

(** X11.  A larger percentage never gives a narrower bar: the width is
    monotone in the percentage. *)
Theorem width_monotone (p q : Q) (v v' : variant) :
  (p <= q)%Q ->
  exists a b,
    fill_width (UsageBar (Finite p) v) = Finite a /\
    fill_width (UsageBar (Finite q) v') = Finite b /\
    (a <= b)%Q.
Proof.
  intro Hpq.
  destruct (clamp_Finite p) as (a & Ea & [Ha0 Ha100] & Hain & Haneg & Habig).
  destruct (clamp_Finite q) as (b & Eb & [Hb0 Hb100] & Hbin & Hbneg & Hbbig).
  exists a, b. unfold UsageBar. cbn [fill_width].
  split; [exact Ea | split; [exact Eb |]].
  destruct (Qlt_le_dec p 0) as [Hp | Hp].
  - specialize (Haneg Hp). lra.
  - destruct (Qlt_le_dec 100 p) as [Hp' | Hp'].
    + specialize (Habig Hp'). assert (Hq : (100 < q)%Q) by lra.
      specialize (Hbbig Hq). lra.
    + specialize (Hain (conj Hp Hp')).
      destruct (Qlt_le_dec 100 q) as [Hq' | Hq'].
      * specialize (Hbbig Hq'). lra.
      * assert (Hq : (0 <= q)%Q) by lra. specialize (Hbin (conj Hq Hq')). lra.
Qed.

Lemma width_monotone_witness :
  exists a b,
    fill_width (UsageBar (Finite 40) default) = Finite a /\
    fill_width (UsageBar (Finite 150) opus) = Finite b /\
    (a <= b)%Q.
Proof.
  apply (width_monotone 40 150 default opus). discriminate.
Defined.

(* ================================================================= *)
(** * The reset timer *)

Section Timer.

Import ResetTimer.

Lemma rem_nonneg (a k : Z) : (0 <= a)%Z -> (0 < k)%Z -> Z.rem a k = (a mod k)%Z.
Proof. intros Ha Hk. apply Z.rem_mod_nonneg; lia. Qed.

End Timer.

(** X12.  While the reset lies ahead, the countdown splits the time left
    into whole days, hours below 24 and minutes below 60, and shows the
    days and hours, or the hours and minutes when there is no whole day,
    or the minutes alone when there is no whole hour: it never overstates
    the time left, and understates it by less than a minute (by less than
    an hour once days are shown). *)
Theorem countdown_understates (t now : Z) :
  (now < t)%Z ->
  exists d h m r : Z,
    (t - now = d * ResetTimer.DAY + h * ResetTimer.HOUR + m * ResetTimer.MINUTE + r)%Z /\
    (0 <= d)%Z /\ (0 <= h < 24)%Z /\ (0 <= m < 60)%Z /\ (0 <= r < ResetTimer.MINUTE)%Z /\
    ResetTimer.calculateTimeRemaining (Some t) (Some now)
    = lit "Resets in "
      ++ (if (0 <? d)%Z
          then ResetTimer.to_string (Some d) ++ lit "d "
               ++ ResetTimer.to_string (Some h) ++ lit "h"
          else if (0 <? h)%Z
          then ResetTimer.to_string (Some h) ++ lit "h "
               ++ ResetTimer.to_string (Some m) ++ lit "m"
          else ResetTimer.to_string (Some m) ++ lit "m").
Proof.
  intro Hlt.
  set (diff := (t - now)%Z).
  assert (Hd : (0 < diff)%Z) by (unfold diff; lia).
  exists (diff / 86400000)%Z, (Z.rem diff 86400000 / 3600000)%Z,
         (Z.rem diff 3600000 / 60000)%Z, (diff mod 60000)%Z.
  unfold ResetTimer.DAY, ResetTimer.HOUR, ResetTimer.MINUTE.
  change (1000 * 60 * 60 * 24)%Z with 86400000%Z.
  change (1000 * 60 * 60)%Z with 3600000%Z.
  change (1000 * 60)%Z with 60000%Z.
  rewrite !rem_nonneg by lia.
  split; [| split; [| split; [| split; [| split]]]].
  - Z.div_mod_to_equations. lia.
  - apply Z.div_pos; lia.
  - pose proof (Z.mod_pos_bound diff 86400000 ltac:(lia)) as B1.
    split; [apply Z.div_pos; lia | apply Z.div_lt_upper_bound; lia].
  - pose proof (Z.mod_pos_bound diff 3600000 ltac:(lia)) as B1.
    split; [apply Z.div_pos; lia | apply Z.div_lt_upper_bound; lia].
  - apply Z.mod_pos_bound. lia.
  - unfold ResetTimer.calculateTimeRemaining.
    change (ResetTimer.sub (Some t) (Some now)) with (Some diff).
    assert (L : ResetTimer.le_0 (Some diff) = false) by (apply Z.leb_gt; exact Hd).
    rewrite L. cbn [ResetTimer.floor_div ResetTimer.rem ResetTimer.gt_0].
    change (1000 * 60 * 60 * 24)%Z with 86400000%Z.
    change (1000 * 60 * 60)%Z with 3600000%Z.
    change (1000 * 60)%Z with 60000%Z.
    rewrite !rem_nonneg by lia. reflexivity.
Qed.

Lemma countdown_understates_witness :
  exists d h m r : Z,
    (5430000 - 0 = d * ResetTimer.DAY + h * ResetTimer.HOUR + m * ResetTimer.MINUTE + r)%Z /\
    (0 <= d)%Z /\ (0 <= h < 24)%Z /\ (0 <= m < 60)%Z /\ (0 <= r < ResetTimer.MINUTE)%Z /\
    ResetTimer.calculateTimeRemaining (Some 5430000%Z) (Some 0%Z)
    = lit "Resets in "
      ++ (if (0 <? d)%Z
          then ResetTimer.to_string (Some d) ++ lit "d "
               ++ ResetTimer.to_string (Some h) ++ lit "h"
          else if (0 <? h)%Z
          then ResetTimer.to_string (Some h) ++ lit "h "
               ++ ResetTimer.to_string (Some m) ++ lit "m"
          else ResetTimer.to_string (Some m) ++ lit "m").
Proof.
  apply (countdown_understates 5430000 0). reflexivity.
Defined.

(** X13.  The edges of the countdown: once the reset time is reached or
    past, the text is [Resetting...]; when [resetsAt] is not a date, so
    that its time is NaN, the text is [Resets in NaNm]. *)
Theorem countdown_edges :
  (forall t now : Z,
     (t <= now)%Z ->
     ResetTimer.calculateTimeRemaining (Some t) (Some now) = lit "Resetting...") /\
  (forall now : ResetTimer.num,
     ResetTimer.calculateTimeRemaining None now = lit "Resets in NaNm").
Proof.
  split.
  - intros t now H. unfold ResetTimer.calculateTimeRemaining.
    cbn [ResetTimer.sub ResetTimer.le_0].
    assert (L : (t - now <=? 0)%Z = true) by (apply Z.leb_le; lia).
    rewrite L. reflexivity.
  - intro now. reflexivity.
Qed.

Lemma countdown_edges_witness :
  ResetTimer.calculateTimeRemaining (Some 1000%Z) (Some 1000%Z) = lit "Resetting...".
Proof.
  apply (proj1 countdown_edges 1000%Z 1000%Z). reflexivity.
Defined.

(* ================================================================= *)
(** * The hook and the widget *)

Section Hook.

Import useUsageData.

Lemma after_app (xs ys : list step) (st : state) :
  after (xs ++ ys) st = after ys (after xs st).
Proof. apply fold_left_app. Qed.

Lemma data_kept (s : step) (st : state) : data st <> None -> data (fetchData st s) <> None.
Proof.
  intro H. destruct s as [|[r | m]]; simpl; [assumption | discriminate | assumption].
Qed.

Lemma data_kept_after (steps : list step) :
  forall st, data st <> None -> data (after steps st) <> None.
Proof.
  induction steps as [|s steps IH]; intros st H; [assumption |].
  simpl. apply IH, data_kept, H.
Qed.

End Hook.

(** X14.  The hook never loses data: once a fetch has delivered data, the
    state has data after any further steps of any fetches, failed ones
    included; and right after a fetch has ended, with a result or with an
    exception, [loading] is false. *)
Theorem data_is_never_lost (steps : list useUsageData.step) (st : useUsageData.state) :
  (useUsageData.data st <> None ->
   useUsageData.data (useUsageData.after steps st) <> None) /\
  (forall o,
     useUsageData.loading
       (useUsageData.after (steps ++ [useUsageData.Settled o]) st) = false).
Proof.
  split.
  - apply data_kept_after.
  - intro o. rewrite after_app. simpl. destruct o; reflexivity.
Qed.

Lemma data_is_never_lost_witness :
  useUsageData.data
    (useUsageData.after
       [useUsageData.Started; useUsageData.Settled (useUsageData.Rejected "timeout")]
       {| useUsageData.data :=
            Some {| WidgetData.fiveHour :=
                      Some {| WidgetData.percent := UsageBar.of_Z 45;
                              WidgetData.resetsAt := "2026-01-01T17:00:00Z" |};
                    WidgetData.sevenDay := None;
                    WidgetData.sevenDaySonnet := None;
                    WidgetData.sevenDayOpus := None;
                    WidgetData.tokenStats :=
                      {| WidgetData.todayTokens := UsageBar.of_Z 0;
                         WidgetData.weekTokens := UsageBar.of_Z 0;
                         WidgetData.todayMessages := UsageBar.of_Z 0;
                         WidgetData.weekMessages := UsageBar.of_Z 0 |};
                    WidgetData.lastUpdated := "2026-01-01T12:00:00Z";
                    WidgetData.error := None |};
          useUsageData.loading := false;
          useUsageData.error := None |})
  <> None.
Proof.
  apply (proj1 (data_is_never_lost _ _)). discriminate.
Defined.

(** X15.  Once a fetch has delivered data, the widget shows the usage
    content and neither the error block nor the loading block, whatever
    the fetches that follow do. *)
Theorem content_stays (before later : list useUsageData.step) (result : WidgetData.t)
    (isDragging : bool) :
  let st :=
    useUsageData.after
      (before ++ useUsageData.Settled (useUsageData.Resolved result) :: later)
      useUsageData.initial in
  UsageWidget.widget_content (UsageWidget.App st isDragging) <> None /\
  UsageWidget.widget_error (UsageWidget.App st isDragging) = None /\
  UsageWidget.widget_loading (UsageWidget.App st isDragging) = false.
Proof.
  intro st.
  assert (H : useUsageData.data st <> None).
  { unfold st. rewrite after_app. simpl. apply data_kept_after. discriminate. }
  unfold UsageWidget.App, UsageWidget.UsageWidget. simpl.
  destruct (useUsageData.data st); [| congruence].
  repeat split. discriminate.
Qed.

(** X16.  A refresh that fails while data is shown leaves the widget
    exactly as it was: the failure is not displayed.  Before any data has
    arrived, a failed fetch shows its message in the error block, unless
    the message is empty, and no loading block. *)
Theorem failed_refresh (st : useUsageData.state) (message : string) (isDragging : bool) :
  (useUsageData.data st <> None ->
   useUsageData.loading st = false ->
   UsageWidget.App
     (useUsageData.after
        [useUsageData.Started; useUsageData.Settled (useUsageData.Rejected message)] st)
     isDragging
   = UsageWidget.App st isDragging) /\
  (useUsageData.data st = None ->
   UsageWidget.App
     (useUsageData.after
        [useUsageData.Started; useUsageData.Settled (useUsageData.Rejected message)] st)
     isDragging
   = {| UsageWidget.dragging := isDragging;
        UsageWidget.refresh_disabled := false;
        UsageWidget.icon_spinning := false;
        UsageWidget.widget_error :=
          match message with EmptyString => None | _ => Some message end;
        UsageWidget.widget_loading := false;
        UsageWidget.widget_content := None |}).
Proof.
  destruct st as [d l e]. simpl. split.
  - intros Hd ->. unfold UsageWidget.App, UsageWidget.UsageWidget. simpl.
    destruct d; [reflexivity | congruence].
  - intros ->. unfold UsageWidget.App, UsageWidget.UsageWidget. simpl.
    destruct message; reflexivity.
Qed.

Lemma failed_refresh_witness :
  UsageWidget.App
    (useUsageData.after
       [useUsageData.Started;
        useUsageData.Settled (useUsageData.Rejected "no network")]
       useUsageData.initial)
    false
  = {| UsageWidget.dragging := false;
       UsageWidget.refresh_disabled := false;
       UsageWidget.icon_spinning := false;
       UsageWidget.widget_error := Some "no network"%string;
       UsageWidget.widget_loading := false;
       UsageWidget.widget_content := None |}.
Proof.
  apply (proj2 (failed_refresh useUsageData.initial "no network" false)).
  reflexivity.
Defined.
